(** * RSA-CBC: a shallow embedding of [rsa_cbc.cpp] and of the server's
    per-message handler, with the properties of the specification.

    [cpp_int] (Boost.Multiprecision, arbitrary precision, signed) is [Z];
    C++ [/] and [%] truncate towards zero and are [Z.quot] and [Z.rem];
    [std::string] is [string]; [std::vector<cpp_int>] is [list Z]; a C++
    exception is the [Throw] outcome of the [result] monad. *)

From Stdlib Require Import ZArith Znumtheory List String Ascii Bool Lia.
From Stdlib Require Import Permutation.
From Equations Require Import Equations.
Import ListNotations.

Local Open Scope Z_scope.

#[local] Set Warnings "-deprecated".

(* ===================================================================== *)
(** * Outcomes of a computation *)
(* ===================================================================== *)

(** The exceptions the Boost operations used by the program can raise,
    and a mark for a call whose outcome is not modelled. *)
Inductive exn : Type :=
| RuntimeError   (* std::runtime_error: negative exponent, bad digit *)
| OverflowError  (* std::overflow_error: division by zero *)
| Unmodelled.    (* a call outside what is modelled: see [Boost.shl] *)

(** [Ok a]: the call returns [a]; [Throw e]: it leaves by exception [e]
    (nothing in the program catches one); [Timeout]: an unbounded retry
    loop used up the iterations the model was allowed. *)
Inductive result (A : Type) : Type :=
| Ok (a : A)
| Throw (e : exn)
| Timeout.

Arguments Ok {A} a.
Arguments Throw {A} e.
Arguments Timeout {A}.

Definition bind {A B : Type} (m : result A) (k : A -> result B) : result B :=
  match m with
  | Ok a => k a
  | Throw e => Throw e
  | Timeout => Timeout
  end.

Notation "x <- m ;; k" := (bind m (fun x => k))
  (at level 61, m at next level, right associativity).
Notation "' p <- m ;; k" := (bind m (fun p => k))
  (at level 61, p pattern, m at next level, right associativity).

(** 32-bit two's complement wrap-around of C++ [int] arithmetic. *)
Definition INT_MAX : Z := 2147483647.
Definition INT_MIN : Z := -2147483648.
Definition wrap32 (z : Z) : Z := (z + 2147483648) mod 4294967296 - 2147483648.

(* ===================================================================== *)
(** * The operations of Boost.Multiprecision the program calls *)
(* ===================================================================== *)

Module Boost.

(** Modelled from the spec: the square-and-multiply of [powm] ("modular
    exponentiation") on a positive exponent; every product is reduced
    with the truncating remainder of the library. *)
Fixpoint powm_pos (a : Z) (p : positive) (c : Z) : Z :=
  match p with
  | xH => Z.rem a c
  | xO p' => let h := powm_pos a p' c in Z.rem (h * h) c
  | xI p' => let h := powm_pos a p' c in Z.rem (Z.rem (h * h) c * a) c
  end.

(** Modelled from the spec: [powm] of the external big-integer library,
    "modular exponentiation", [m^e mod n]. Boost rejects a negative
    exponent with std::runtime_error and a zero modulus with
    std::overflow_error (division by zero); the remainder has the sign of
    the dividend. *)
Definition powm (a p c : Z) : result Z :=
  if p <? 0 then Throw RuntimeError
  else if c =? 0 then Throw OverflowError
  else match p with
       | Zpos p' => Ok (powm_pos a p' c)
       | _ => Ok (Z.rem 1 c)
       end.

(** Modelled from the spec: [operator<<] of [cpp_int] by an [int] count,
    the shift of the "add/sub/mul/div/mod/shift/compare" the library
    provides. Only counts of zero or more are modelled. What Boost does
    with a negative count (a range check, a failed allocation) is not
    asserted: the outcome [Throw Unmodelled] marks it, and no theorem
    speaks of it. *)
Definition shl (a count : Z) : result Z :=
  if count <? 0 then Throw Unmodelled else Ok (Z.shiftl a count).

(** Modelled from the spec: [cpp_int::convert_to<int>()] of the unchecked
    [cpp_int]: a value outside the range of [int] saturates. *)
Definition convert_to_int (m : Z) : Z :=
  if m <? INT_MIN then INT_MIN
  else if INT_MAX <? m then INT_MAX
  else m.

(** Modelled from the spec: the value of a digit character read by the
    [cpp_int] string constructor in the given radix, if it is one. *)
Definition digit_value (radix : Z) (ch : ascii) : option Z :=
  let n := Z.of_N (N_of_ascii ch) in
  let v :=
    if (48 <=? n) && (n <=? 57) then Some (n - 48)
    else if (97 <=? n) && (n <=? 102) then Some (n - 87)
    else if (65 <=? n) && (n <=? 70) then Some (n - 55)
    else None in
  match v with
  | Some d => if d <? radix then Some d else None
  | None => None
  end.

(** Modelled from the spec: the digit loop of the [cpp_int] string
    constructor; a character that is no digit raises std::runtime_error. *)
Fixpoint parse_digits (radix : Z) (acc : Z) (s : string) : result Z :=
  match s with
  | EmptyString => Ok acc
  | String ch s' =>
      match digit_value radix ch with
      | Some d => parse_digits radix (acc * radix + d) s'
      | None => Throw RuntimeError
      end
  end.

(** Modelled from the spec: the constructor [cpp_int(const std::string&)]
    ("decimal integers"; "unparsable integer"). Boost reads an optional
    ['-'], then a radix prefix (["0x"]/["0X"] hexadecimal, a leading ['0']
    octal, decimal otherwise), then digits of that radix; any other
    character raises std::runtime_error. *)
Definition cpp_int_of_string (s : string) : result Z :=
  let '(isneg, s1) :=
    match s with
    | String "-"%char r => (true, r)
    | _ => (false, s)
    end in
  let '(radix, s2) :=
    match s1 with
    | String "0"%char (String "x"%char r) => (16, r)
    | String "0"%char (String "X"%char r) => (16, r)
    | String "0"%char r => (8, r)
    | _ => (10, s1)
    end in
  v <- parse_digits radix 0 s2 ;;
  Ok (if isneg then - v else v).

(** Modelled from the spec: the character of the decimal digit [d]. *)
Definition digit_char (d : Z) : ascii := ascii_of_N (Z.to_N (48 + d)).

(** Modelled from the spec: the decimal digits of a non-negative [z],
    most significant first and without leading zeros, put in front of
    [acc]. *)
Equations? digits_of (z : Z) (acc : string) : string
  by wf (Z.to_nat z) lt :=
  digits_of z acc with Z_lt_dec z 10 := {
    | left _ => String (digit_char z) acc
    | right _ => digits_of (z / 10) (String (digit_char (z mod 10)) acc)
  }.
Proof.
  pose proof (Z.div_lt z 10 ltac:(lia) ltac:(lia)).
  pose proof (Z.div_pos z 10 ltac:(lia) ltac:(lia)).
  lia.
Qed.

(** Modelled from the spec: [cpp_int::str()], the "decimal integers" of
    the wire format: the decimal digits, after a ['-'] for a negative
    value. *)
Definition str (z : Z) : string :=
  if z <? 0 then String "-"%char (digits_of (- z) EmptyString)
  else digits_of z EmptyString.

End Boost.

(* ===================================================================== *)
(** * rsa_cbc.cpp *)
(* ===================================================================== *)

(** [cpp_int mod_exp(cpp_int base, cpp_int exp, cpp_int mod)] *)
Definition mod_exp (base exp mod_ : Z) : result Z :=
  Boost.powm base exp mod_.

(** The [while (new_r != 0)] loop of [mod_inverse] on the four variables
    [t], [new_t], [r], [new_r]; it returns the final [t] and [r]. The
    magnitude of [new_r] decreases in every iteration. *)
Equations? mod_inverse_loop (t new_t r new_r : Z) : Z * Z
  by wf (Z.abs_nat new_r) lt :=
  mod_inverse_loop t new_t r new_r with Z.eq_dec new_r 0 := {
    | left _ => (t, r)
    | right _ =>
        let quotient := Z.quot r new_r in
        mod_inverse_loop new_t (t - quotient * new_t)
                         new_r (r - quotient * new_r)
  }.
Proof.
  subst quotient.
  replace (r - Z.quot r new_r * new_r) with (Z.rem r new_r)
    by (pose proof (Z.quot_rem' r new_r); lia).
  pose proof (Z.rem_bound_abs r new_r ltac:(assumption)).
  lia.
Qed.

(** [cpp_int mod_inverse(cpp_int e, cpp_int phi)] *)
Definition mod_inverse (e phi : Z) : Z :=
  let '(t, r) := mod_inverse_loop 0 1 phi e in
  if 1 <? r then 0                      (* No inverse exists *)
  else if t <? 0 then t + phi
  else t.

(** [cpp_int rsa_encrypt(cpp_int m, cpp_int e, cpp_int n)] *)
Definition rsa_encrypt (m e n : Z) : result Z := mod_exp m e n.

(** [cpp_int rsa_decrypt(cpp_int c, cpp_int d, cpp_int n)] *)
Definition rsa_decrypt (c d n : Z) : result Z := mod_exp c d n.

(** [static_cast<unsigned char>(ch)] read as a [cpp_int]. *)
Definition byte_of_char (ch : ascii) : Z := Z.of_N (N_of_ascii ch).

(** [static_cast<char>(m.convert_to<int>())]: the low eight bits. *)
Definition char_of_cpp_int (m : Z) : ascii :=
  ascii_of_N (Z.to_N (Boost.convert_to_int m mod 256)).

(** The body of [cbc_encrypt]'s range-for, from the character [ch] on,
    with [prev] the previous cipher block. *)
Fixpoint cbc_encrypt_from (plaintext : string) (e n prev : Z)
  : result (list Z) :=
  match plaintext with
  | EmptyString => Ok []
  | String ch rest =>
      let m := byte_of_char ch in
      let x := Z.lxor m (Z.rem prev 256) in
      c <- rsa_encrypt x e n ;;
      cipher <- cbc_encrypt_from rest e n c ;;
      Ok (c :: cipher)
  end.

(** [std::vector<cpp_int> cbc_encrypt(plaintext, e, n, iv)] *)
Definition cbc_encrypt (plaintext : string) (e n iv : Z) : result (list Z) :=
  cbc_encrypt_from plaintext e n iv.

Fixpoint cbc_decrypt_from (cipher : list Z) (d n prev : Z) : result string :=
  match cipher with
  | [] => Ok EmptyString
  | c :: rest =>
      x <- rsa_decrypt c d n ;;
      let m := Z.lxor x (Z.rem prev 256) in
      plaintext <- cbc_decrypt_from rest d n c ;;
      Ok (String (char_of_cpp_int m) plaintext)
  end.

(** [std::string cbc_decrypt(cipher, d, n, iv)] *)
Definition cbc_decrypt (cipher : list Z) (d n iv : Z) : result string :=
  cbc_decrypt_from cipher d n iv.

(** The [while (d % 2 == 0) { d /= 2; ++s; }] loop on a positive [d]:
    every trailing zero bit is one iteration; [s] is an [int]. *)
Fixpoint strip_twos (d : positive) (s : Z) : Z * Z :=
  match d with
  | xO d' => strip_twos d' (wrap32 (s + 1))
  | _ => (Zpos d, s)
  end.

(** The same loop on any [cpp_int]: on [0] it never ends, on a negative
    [d] the exact halving acts on the magnitude. *)
Definition decompose (d : Z) : result (Z * Z) :=
  match d with
  | Z0 => Timeout
  | Zpos p => Ok (strip_twos p 0)
  | Zneg p => let '(d', s) := strip_twos p 0 in Ok (- d', s)
  end.

(** The inner [for (int r = 0; r < s - 1; ++r)] loop, [rounds] iterations
    left: [true] when some square reaches [n - 1] ([is_prime]). *)
Fixpoint squaring_loop (n x : Z) (rounds : nat) : result bool :=
  match rounds with
  | O => Ok false
  | S rounds' =>
      x' <- mod_exp x 2 n ;;
      if x' =? n - 1 then Ok true else squaring_loop n x' rounds'
  end.

(** The outer [for (int i = 0; i < k; ++i)] loop, [rounds] iterations
    left; [dis i] is the base [a] the [i]-th call [dis(gen)] draws. *)
Fixpoint witness_loop (dis : nat -> Z) (n d s : Z) (rounds i : nat)
  : result bool :=
  match rounds with
  | O => Ok true
  | S rounds' =>
      let a := dis i in
      x <- mod_exp a d n ;;
      if (x =? 1) || (x =? n - 1) then witness_loop dis n d s rounds' (S i)
      else
        is_prime <- squaring_loop n x (Z.to_nat (wrap32 (s - 1))) ;;
        if is_prime then witness_loop dis n d s rounds' (S i)
        else Ok false
  end.

(** [bool miller_rabin_test(cpp_int n, int k)]; [dis] is the sequence of
    values of [uniform_int_distribution<cpp_int> dis(2, n - 2)] on the
    engine the call seeds from [std::random_device]. *)
Definition miller_rabin_test (dis : nat -> Z) (n k : Z) : result bool :=
  if (n <=? 1) || ((Z.rem n 2 =? 0) && negb (n =? 2)) then Ok false
  else if (n =? 2) || (n =? 3) then Ok true
  else
    '(d, s) <- decompose (n - 1) ;;
    witness_loop dis n d s (Z.to_nat k) 0.

(** An output of [mt19937_64]: an unsigned 64-bit word. *)
Definition word64 (w : Z) : Z := w mod 18446744073709551616.

(** The [for] loop of [random_number], [iterations] left; [gen i] is the
    [i]-th output of the call's engine. *)
Fixpoint draw_words (gen : nat -> Z) (iterations i : nat) (result : Z) : Z :=
  match iterations with
  | O => result
  | S iterations' =>
      draw_words gen iterations' (S i)
                 (Z.lor (Z.shiftl result 64) (word64 (gen i)))
  end.

(** [cpp_int random_number(int bits)] *)
Definition random_number (gen : nat -> Z) (bits : Z) : result Z :=
  let iterations := Z.quot (wrap32 (bits + 63)) 64 in
  let result := draw_words gen (Z.to_nat iterations) 0 0 in
  mask <- Boost.shl 1 bits ;;
  let result := Z.land result (mask - 1) in
  top <- Boost.shl 1 (bits - 1) ;;
  Ok (Z.lor result (Z.lor top 1)).

(** The randomness of one run: [mt_word g] are the words of the engine
    [random_number] seeds for the [g]-th candidate of the run, and
    [dis_sample g] the bases [miller_rabin_test] draws when it tests that
    candidate. Every engine is seeded afresh from [std::random_device],
    so nothing relates one index to the next. *)
Record entropy : Type := {
  mt_word : nat -> nat -> Z;
  dis_sample : nat -> nat -> Z
}.

(** [cpp_int generate_prime(int bits)]: the [while (true)] loop, allowed
    [fuel] candidates; [g] counts the candidates drawn before the call,
    and the count after it is returned with the prime. *)
Fixpoint generate_prime (fuel : nat) (rnd : entropy) (bits : Z) (g : nat)
  : result (Z * nat) :=
  match fuel with
  | O => Timeout
  | S fuel' =>
      candidate <- random_number (mt_word rnd g) bits ;;
      passed <- miller_rabin_test (dis_sample rnd g) candidate 10 ;;
      if passed then Ok (candidate, S g)
      else generate_prime fuel' rnd bits (S g)
  end.

(** [while (q == p) q = generate_prime(bits / 2);] *)
Fixpoint resample_while_equal (fuel : nat) (rnd : entropy) (half p q : Z)
  (g : nat) : result (Z * nat) :=
  if q =? p then
    match fuel with
    | O => Timeout
    | S fuel' =>
        '(q', g') <- generate_prime (S fuel') rnd half g ;;
        resample_while_equal fuel' rnd half p q' g'
    end
  else Ok (q, g).

(** [void generate_rsa_keys(cpp_int& n, cpp_int& e, cpp_int& d, int bits)]:
    the three reference parameters are returned as [(n, e, d)]. *)
Definition generate_rsa_keys (fuel : nat) (rnd : entropy) (bits : Z)
  : result (Z * Z * Z) :=
  '(p, g1) <- generate_prime fuel rnd (Z.quot bits 2) 0 ;;
  '(q0, g2) <- generate_prime fuel rnd (Z.quot bits 2) g1 ;;
  '(q, _) <- resample_while_equal fuel rnd (Z.quot bits 2) p q0 g2 ;;
  let n := p * q in
  let phi := (p - 1) * (q - 1) in
  let e := 65537 in
  let d := mod_inverse e phi in
  Ok (n, e, d).

(* ===================================================================== *)
(** * server.cpp: the loop that handles the messages of one client *)
(* ===================================================================== *)

Module Server.

Local Open Scope string_scope.

(** [std::string data(buffer)]: the bytes before the first NUL. *)
Fixpoint c_str (buffer : string) : string :=
  match buffer with
  | EmptyString => EmptyString
  | String ch rest =>
      if Ascii.eqb ch "000"%char then EmptyString else String ch (c_str rest)
  end.

(** The successive results of [getline(ss, block, delim)]. *)
Fixpoint getline_all (delim : ascii) (s : string) : list string :=
  match s with
  | EmptyString => []
  | String ch rest =>
      if Ascii.eqb ch delim then EmptyString :: getline_all delim rest
      else match getline_all delim rest with
           | [] => [String ch EmptyString]
           | block :: blocks => String ch block :: blocks
           end
  end.

(** [if (!block.empty()) cipher.push_back(cpp_int(block));] for each
    block. *)
Fixpoint parse_blocks (blocks : list string) : result (list Z) :=
  match blocks with
  | [] => Ok []
  | block :: rest =>
      match block with
      | EmptyString => parse_blocks rest
      | _ =>
          c <- Boost.cpp_int_of_string block ;;
          cipher <- parse_blocks rest ;;
          Ok (c :: cipher)
      end
  end.

(** What one iteration of the receive loop did with its message. *)
Inductive handled : Type :=
| Dropped (log : string)          (* [continue] after the diagnostic *)
| Answered (response : string).   (* the acknowledgement that was sent *)

Definition crlf : string := String "013"%char (String "010"%char EmptyString).

(** The body of the receive loop from [std::string data(buffer)] to the
    [send] of the response, for the keys [(d, n)] of the process. *)
Definition handle_message (d n : Z) (buffer : string) : result handled :=
  let data := c_str buffer in
  match index 0 "|" data with
  | None => Ok (Dropped "Invalid data format.")
  | Some delimiter_pos =>
      let encrypted_nonce_str := substring 0 delimiter_pos data in
      let cipher_str :=
        substring (S delimiter_pos) (length data - S delimiter_pos) data in
      encrypted_nonce <- Boost.cpp_int_of_string encrypted_nonce_str ;;
      iv <- rsa_decrypt encrypted_nonce d n ;;
      cipher <- parse_blocks (getline_all ","%char cipher_str) ;;
      decrypted_message <- cbc_decrypt cipher d n iv ;;
      Ok (Answered ("Message received: " ++ decrypted_message ++ crlf))
  end.

(** The receive loop over the messages a client sends, in order, on a
    transport that does not fail ([recv] and [send] succeed until the
    client closes); an exception leaves [main], so the messages after it
    are not handled. *)
Fixpoint serve (d n : Z) (received : list string) : result (list handled) :=
  match received with
  | [] => Ok []
  | buffer :: rest =>
      h <- handle_message d n buffer ;;
      hs <- serve d n rest ;;
      Ok (h :: hs)
  end.

(** [std::string public_key = e.str() + "|" + n.str();], the message the
    server sends to a client that connects. *)
Definition public_key_message (e n : Z) : string :=
  Boost.str e ++ "|" ++ Boost.str n.

End Server.

(* ===================================================================== *)
(** * client.cpp: the public key it receives and the messages it sends *)
(* ===================================================================== *)

Module Client.

Local Open Scope string_scope.

(** What the client does with the first message of the server. *)
Inductive key_reply : Type :=
| InvalidKey (log : string)       (* the diagnostic, then [return 1] *)
| PublicKey (e n : Z).            (* the key the message loop uses *)

(** From [std::string public_key(buffer)] to [cpp_int n(n_str)]. *)
Definition parse_public_key (buffer : string) : result key_reply :=
  let public_key := Server.c_str buffer in
  match index 0 "|" public_key with
  | None => Ok (InvalidKey "Invalid public key format.")
  | Some delimiter_pos =>
      let e_str := substring 0 delimiter_pos public_key in
      let n_str :=
        substring (S delimiter_pos)
                  (length public_key - S delimiter_pos) public_key in
      e <- Boost.cpp_int_of_string e_str ;;
      n <- Boost.cpp_int_of_string n_str ;;
      Ok (PublicKey e n)
  end.

(** The [for] loop that writes the cipher blocks into [send_data], a
    comma after every block but the last. *)
Fixpoint join_blocks (encrypted_message : list Z) : string :=
  match encrypted_message with
  | [] => EmptyString
  | c :: rest =>
      match rest with
      | [] => Boost.str c
      | _ => Boost.str c ++ "," ++ join_blocks rest
      end
  end.

(** One iteration of the message loop, from the nonce that [dis(gen)]
    drew to the string handed to [send]. *)
Definition encode_message (e n nonce : Z) (message : string)
  : result string :=
  encrypted_nonce <- rsa_encrypt nonce e n ;;
  encrypted_message <- cbc_encrypt message e n nonce ;;
  Ok (Boost.str encrypted_nonce ++ "|" ++ join_blocks encrypted_message).

End Client.

(* ===================================================================== *)
(** * Notions the statements are written with *)
(* ===================================================================== *)

(** Product of a list of integers. *)
Definition zprod (l : list Z) : Z := fold_right Z.mul 1 l.

(** The residues [1, ..., p - 1]. *)
Definition residues (p : Z) : list Z :=
  map Z.of_nat (seq 1 (Z.to_nat (p - 1))).

(** [p] has no divisor among the [fuel] integers from [k] on. *)
Fixpoint no_divisor_from (fuel : nat) (k p : Z) : bool :=
  match fuel with
  | O => true
  | S fuel' => negb (p mod k =? 0) && no_divisor_from fuel' (k + 1) p
  end.

(** Primality by trial division up to the square root, to decide [prime]
    on a given number. *)
Definition primeb (p : Z) : bool :=
  (1 <? p) && no_divisor_from (Z.to_nat (Z.sqrt p - 1)) 2 p.

(** A key pair as the data model has it: [n = p * q] for two distinct
    primes, and [d] the inverse of [e] modulo [(p - 1) * (q - 1)], both
    exponents non-negative. *)
Record valid_key (p q n e d : Z) : Prop := {
  vk_p : prime p;
  vk_q : prime q;
  vk_distinct : p <> q;
  vk_n : n = p * q;
  vk_e : 0 <= e;
  vk_d : 0 <= d < (p - 1) * (q - 1);
  vk_inv : (e * d) mod ((p - 1) * (q - 1)) = 1
}.

(** What the loop of [mod_inverse] maintains on [(t, new_t, r, new_r)]
    when started from [(0, 1, phi, e)]: the remainders keep the greatest
    common divisor, each coefficient times [e] is its remainder modulo
    [phi], the coefficients alternate in sign and their cross product with
    the remainders is [phi]. *)
Definition euclid_invariant (phi e t new_t r new_r : Z) : Prop :=
  0 < r /\ 0 <= new_r /\
  Z.gcd r new_r = Z.gcd phi e /\
  (phi | t * e - r) /\ (phi | new_t * e - new_r) /\
  ((0 <= t /\ new_t <= 0 /\ t * new_r - new_t * r = phi) \/
   (t <= 0 /\ 0 <= new_t /\ new_t * r - t * new_r = phi)) /\
  - phi <= t <= phi.

(** A run in which the first candidate is the prime [917519], which is
    [14 * 65537 + 1], the second the prime [524309], and every base of
    the primality test is [2]. *)
Definition unlucky_entropy : entropy := {|
  mt_word := fun g _ => if Nat.eqb g 0 then 917519 else 524309;
  dis_sample := fun _ _ => 2
|}.

(** Every character of the string satisfies [P]. *)
Fixpoint all_chars (P : ascii -> Prop) (s : string) : Prop :=
  match s with
  | EmptyString => True
  | String ch rest => P ch /\ all_chars P rest
  end.

(** The characters ['0'] to ['9']. *)
Definition is_digit (ch : ascii) : Prop :=
  48 <= byte_of_char ch <= 57.

(** A run in which the first two candidates are the primes [524309] and
    [524341] and every base of the primality test is [2]. *)
Definition example_entropy : entropy := {|
  mt_word := fun g _ => if Nat.eqb g 0 then 524309 else 524341;
  dis_sample := fun _ _ => 2
|}.

(** The cipher sequence with the element at position [i] replaced. *)
Fixpoint replace_at (i : nat) (c' : Z) (cipher : list Z) {struct cipher}
  : list Z :=
  match cipher with
  | [] => []
  | c :: rest =>
      match i with
      | O => c' :: rest
      | S i' => c :: replace_at i' c' rest
      end
  end.

(** The character at position [i] of an outcome that is a string. *)
Definition char_at (i : nat) (r : result string) : option ascii :=
  match r with
  | Ok s => String.get i s
  | _ => None
  end.

(** The value of [prev] when the loop of [cbc_decrypt] reaches position
    [j]: the initialization vector, then the cipher block before [j]. *)
Definition block_before (cipher : list Z) (iv : Z) (j : nat) : Z :=
  match j with
  | O => iv
  | S j' => nth j' cipher 0
  end.


(* ===================================================================== *)
(** * Fermat's little theorem and the RSA identity on [Z] *)
(* ===================================================================== *)

Section NumberTheory.

Lemma zprod_Permutation (l l' : list Z) :
  Permutation l l' -> zprod l = zprod l'.
Proof.
  induction 1; simpl; lia.
Qed.

Lemma zprod_scaled_mod (a p : Z) (l : list Z) :
  zprod (map (fun k => (a * k) mod p) l) mod p
  = (a ^ Z.of_nat (List.length l) * zprod l) mod p.
Proof.
  induction l as [|k l IH].
  - reflexivity.
  - cbn [map zprod fold_right List.length]. fold (zprod l).
    fold (zprod (map (fun k => (a * k) mod p) l)).
    rewrite Nat2Z.inj_succ, Z.pow_succ_r by lia.
    rewrite Zmult_mod_idemp_l.
    rewrite <- Zmult_mod_idemp_r, IH, Zmult_mod_idemp_r.
    f_equal. ring.
Qed.

Lemma zprod_rel_prime (p : Z) (l : list Z) :
  (forall k, In k l -> rel_prime k p) -> rel_prime (zprod l) p.
Proof.
  induction l as [|k l IH]; intros H; simpl.
  - apply rel_prime_1.
  - apply rel_prime_sym, rel_prime_mult; apply rel_prime_sym.
    + apply H; left; reflexivity.
    + apply IH; intros; apply H; right; assumption.
Qed.

Lemma in_residues (p k : Z) : In k (residues p) <-> 1 <= k < p.
Proof.
  unfold residues. rewrite in_map_iff. split.
  - intros (i & <- & Hi). apply in_seq in Hi. lia.
  - intros Hk. exists (Z.to_nat k). split; [lia|]. apply in_seq. lia.
Qed.

Lemma residues_NoDup (p : Z) : NoDup (residues p).
Proof.
  unfold residues. apply NoDup_map_NoDup_ForallPairs.
  - intros a b _ _ Hab. apply Nat2Z.inj; assumption.
  - apply seq_NoDup.
Qed.

Lemma residues_length (p : Z) :
  0 < p -> Z.of_nat (List.length (residues p)) = p - 1.
Proof.
  intros Hp. unfold residues. rewrite length_map, length_seq. lia.
Qed.

Lemma prime_no_small_multiple (p k : Z) :
  prime p -> 1 <= k < p -> ~ (p | k).
Proof.
  intros Hp Hk Hdiv. apply Z.divide_pos_le in Hdiv; lia.
Qed.

(** Fermat's little theorem. *)
Lemma fermat_little (p a : Z) :
  prime p -> ~ (p | a) -> a ^ (p - 1) mod p = 1.
Proof.
  intros Hp Ha.
  pose proof (prime_ge_2 p Hp) as Hp2.
  set (f := fun k => (a * k) mod p).
  assert (Hincl : incl (map f (residues p)) (residues p)).
  { intros y Hy. apply in_map_iff in Hy as (k & <- & Hk).
    apply in_residues in Hk. apply in_residues. unfold f.
    pose proof (Z.mod_pos_bound (a * k) p ltac:(lia)) as Hb.
    assert ((a * k) mod p <> 0).
    { intros H0. apply Z.mod_divide in H0; [|lia].
      apply prime_mult in H0; [|assumption].
      destruct H0 as [H0|H0]; [auto|].
      exact (prime_no_small_multiple p k Hp Hk H0). }
    lia. }
  assert (Hnd : NoDup (map f (residues p))).
  { apply NoDup_map_NoDup_ForallPairs; [|apply residues_NoDup].
    intros k k' Hk Hk' Heq. apply in_residues in Hk, Hk'. unfold f in Heq.
    apply Z.cong_iff_0 in Heq.
    apply Z.mod_divide in Heq; [|lia].
    replace (a * k - a * k') with (a * (k - k')) in Heq by ring.
    apply prime_mult in Heq; [|assumption].
    destruct Heq as [Heq|Heq]; [contradiction|].
    destruct (Z.eq_dec k k') as [|Hne]; [assumption|exfalso].
    destruct (Z.lt_total k k') as [Hlt|[Heq'|Hgt]]; [|contradiction|].
    - apply Z.divide_opp_r in Heq.
      apply (prime_no_small_multiple p (- (k - k')) Hp); [lia|assumption].
    - apply (prime_no_small_multiple p (k - k') Hp); [lia|assumption]. }
  assert (Hperm : Permutation (map f (residues p)) (residues p)).
  { apply NoDup_Permutation_bis; [assumption| |assumption].
    rewrite length_map. apply Nat.le_refl. }
  apply zprod_Permutation in Hperm.
  apply (f_equal (fun z => z mod p)) in Hperm.
  unfold f in Hperm. rewrite zprod_scaled_mod, residues_length in Hperm by lia.
  apply Z.cong_iff_0 in Hperm.
  apply Z.mod_divide in Hperm; [|lia].
  replace (a ^ (p - 1) * zprod (residues p) - zprod (residues p))
    with (zprod (residues p) * (a ^ (p - 1) - 1)) in Hperm by ring.
  apply Gauss in Hperm.
  - apply Zdivide_mod_minus; [lia|assumption].
  - apply rel_prime_sym, zprod_rel_prime. intros k Hk.
    apply in_residues in Hk.
    apply rel_prime_le_prime; assumption.
Qed.

Lemma pow_one_mod (x p k : Z) :
  1 < p -> 0 <= k -> x mod p = 1 -> x ^ k mod p = 1.
Proof.
  intros Hp Hk Hx. rewrite <- Z.mod_pow_l, Hx, Z.pow_1_l by assumption.
  apply Z.mod_small; lia.
Qed.

(** [m ^ (1 + k (p - 1))] is [m] modulo a prime [p], for every [m]. *)
Lemma fermat_exponent (p m k : Z) :
  prime p -> 0 <= k -> m ^ (1 + k * (p - 1)) mod p = m mod p.
Proof.
  intros Hp Hk. pose proof (prime_ge_2 p Hp) as Hp2.
  rewrite Z.pow_add_r, Z.pow_1_r by nia.
  destruct (Zdivide_dec p m) as [Hdiv|Hndiv].
  - rewrite <- Zmult_mod_idemp_l.
    rewrite (Zdivide_mod m p Hdiv). reflexivity.
  - rewrite <- Zmult_mod_idemp_r.
    rewrite (Z.mul_comm k), Z.pow_mul_r by lia.
    rewrite (pow_one_mod (m ^ (p - 1)) p k); try lia.
    + rewrite Z.mul_1_r. reflexivity.
    + apply fermat_little; assumption.
Qed.

Lemma distinct_primes_rel_prime (p q : Z) :
  prime p -> prime q -> p <> q -> rel_prime p q.
Proof.
  intros Hp Hq Hne. apply prime_rel_prime; [assumption|].
  intros Hdiv. apply Hne. apply prime_div_prime; assumption.
Qed.

(** The RSA identity: [m ^ (e d)] is [m] modulo [p q]. *)
Lemma rsa_identity (p q e d m : Z) :
  prime p -> prime q -> p <> q -> 0 <= e -> 0 <= d ->
  (e * d) mod ((p - 1) * (q - 1)) = 1 ->
  m ^ (e * d) mod (p * q) = m mod (p * q).
Proof.
  intros Hp Hq Hne He Hd Hinv.
  pose proof (prime_ge_2 p Hp) as Hp2. pose proof (prime_ge_2 q Hq) as Hq2.
  set (phi := (p - 1) * (q - 1)) in *.
  assert (Hphi : 0 < phi) by (unfold phi; nia).
  set (k := (e * d) / phi).
  assert (Hk : 0 <= k) by (apply Z.div_pos; nia).
  assert (Hed : e * d = 1 + k * phi).
  { pose proof (Z.div_mod (e * d) phi ltac:(lia)) as H. fold k in H. lia. }
  rewrite Hed.
  assert (Hmp : (p | m ^ (1 + k * phi) - m)).
  { apply Z.mod_divide; [lia|]. apply Z.cong_iff_0.
    replace (k * phi) with ((k * (q - 1)) * (p - 1)) by (unfold phi; ring).
    apply fermat_exponent; [assumption|nia]. }
  assert (Hmq : (q | m ^ (1 + k * phi) - m)).
  { apply Z.mod_divide; [lia|]. apply Z.cong_iff_0.
    replace (k * phi) with ((k * (p - 1)) * (q - 1)) by (unfold phi; ring).
    apply fermat_exponent; [assumption|nia]. }
  apply Z.cong_iff_0, Z.mod_divide; [nia|].
  destruct Hmp as [u Hu]. rewrite Hu in Hmq |- *.
  rewrite Z.mul_comm in Hmq. apply Gauss in Hmq.
  - destruct Hmq as [v ->]. exists v. ring.
  - apply rel_prime_sym, distinct_primes_rel_prime; assumption.
Qed.

End NumberTheory.

(* ===================================================================== *)
(** * The big-integer operations *)
(* ===================================================================== *)

Section Primitives.

Lemma powm_pos_rem (a c : Z) (p : positive) :
  c <> 0 -> Boost.powm_pos a p c = Z.rem (a ^ Zpos p) c.
Proof.
  intros Hc. induction p as [p IH|p IH|]; cbn [Boost.powm_pos].
  - rewrite IH, <- Z.mul_rem by assumption.
    rewrite Z.mul_rem_idemp_l by assumption.
    f_equal. rewrite Pos2Z.inj_xI.
    rewrite Z.pow_add_r, Z.pow_1_r, Z.pow_twice_r by lia. ring.
  - rewrite IH, <- Z.mul_rem by assumption.
    f_equal. rewrite Pos2Z.inj_xO, Z.pow_twice_r. ring.
  - rewrite Z.pow_1_r. reflexivity.
Qed.

(** Where it returns, [mod_exp] is the truncated remainder of the power. *)
Lemma mod_exp_rem (base exp m : Z) :
  0 <= exp -> m <> 0 -> mod_exp base exp m = Ok (Z.rem (base ^ exp) m).
Proof.
  intros He Hm. unfold mod_exp, Boost.powm.
  destruct (Z.ltb_spec exp 0); [lia|].
  destruct (Z.eqb_spec m 0); [contradiction|].
  destruct exp as [|p|p]; [reflexivity| |lia].
  rewrite powm_pos_rem by assumption. reflexivity.
Qed.

(** On a non-negative base and a positive modulus it is [base^exp mod m]. *)
Lemma mod_exp_nonneg (base exp m : Z) :
  0 <= base -> 0 <= exp -> 0 < m ->
  mod_exp base exp m = Ok (base ^ exp mod m).
Proof.
  intros Hb He Hm. rewrite mod_exp_rem by lia.
  rewrite Z.rem_mod_nonneg; [reflexivity| |assumption].
  apply Z.pow_nonneg; assumption.
Qed.

Lemma mod_exp_negative_exponent (base exp m : Z) :
  exp < 0 -> mod_exp base exp m = Throw RuntimeError.
Proof.
  intros He. unfold mod_exp, Boost.powm.
  destruct (Z.ltb_spec exp 0); [reflexivity|lia].
Qed.

Lemma lxor_byte_bound (a b : Z) :
  0 <= a < 256 -> 0 <= b < 256 -> 0 <= Z.lxor a b < 256.
Proof.
  intros Ha Hb. split.
  - apply Z.lxor_nonneg. lia.
  - destruct (Z.eq_dec (Z.lxor a b) 0) as [->|Hne]; [lia|].
    assert (0 < Z.lxor a b)
      by (pose proof (proj2 (Z.lxor_nonneg a b) ltac:(lia)); lia).
    apply (Z.log2_lt_pow2 _ 8); [assumption|].
    pose proof (Z.log2_lxor a b ltac:(lia) ltac:(lia)) as Hl.
    assert (Z.log2 a < 8).
    { destruct (Z.eq_dec a 0) as [->|]; [cbn; lia|].
      apply Z.log2_lt_pow2; lia. }
    assert (Z.log2 b < 8).
    { destruct (Z.eq_dec b 0) as [->|]; [cbn; lia|].
      apply Z.log2_lt_pow2; lia. }
    lia.
Qed.

Lemma lxor_cancel_r (m k : Z) : Z.lxor (Z.lxor m k) k = m.
Proof. rewrite Z.lxor_assoc, Z.lxor_nilpotent, Z.lxor_0_r. reflexivity. Qed.

Lemma byte_of_char_bound (ch : ascii) : 0 <= byte_of_char ch < 256.
Proof.
  unfold byte_of_char. pose proof (N_ascii_bounded ch). lia.
Qed.

Lemma rem_256_bound (prev : Z) : 0 <= prev -> 0 <= Z.rem prev 256 < 256.
Proof. intros H. apply Z.rem_bound_pos; lia. Qed.

Lemma char_of_byte (ch : ascii) : char_of_cpp_int (byte_of_char ch) = ch.
Proof.
  pose proof (byte_of_char_bound ch) as Hb.
  unfold char_of_cpp_int, Boost.convert_to_int, INT_MIN, INT_MAX.
  destruct (Z.ltb_spec (byte_of_char ch) (-2147483648)); [lia|].
  destruct (Z.ltb_spec 2147483647 (byte_of_char ch)); [lia|].
  rewrite Z.mod_small by lia. unfold byte_of_char.
  rewrite N2Z.id. apply ascii_N_embedding.
Qed.


End Primitives.

(* ===================================================================== *)
(** * Deciding primality of a given number *)
(* ===================================================================== *)

Lemma no_divisor_from_spec (fuel : nat) (k p j : Z) :
  no_divisor_from fuel k p = true ->
  k <= j < k + Z.of_nat fuel -> p mod j <> 0.
Proof.
  revert k. induction fuel as [|fuel IH]; intros k H Hj; [lia|].
  cbn [no_divisor_from] in H. apply andb_prop in H as [H1 H2].
  destruct (Z.eq_dec j k) as [->|Hne].
  - apply negb_true_iff, Z.eqb_neq in H1. exact H1.
  - apply (IH (k + 1)); [assumption|lia].
Qed.

Lemma primeb_correct (p : Z) : primeb p = true -> prime p.
Proof.
  unfold primeb. intros H. apply andb_prop in H as [H1 H2].
  apply Z.ltb_lt in H1. apply prime_alt. split; [assumption|].
  pose proof (Z.sqrt_spec p ltac:(lia)) as Hs.
  assert (Hsmall : forall j, 2 <= j <= Z.sqrt p -> ~ (j | p)).
  { intros j Hj Hdiv. apply (no_divisor_from_spec _ _ _ j H2); [lia|].
    apply Z.mod_divide; [lia|assumption]. }
  intros k Hk Hdiv.
  destruct (Z.le_gt_cases k (Z.sqrt p)) as [Hle|Hgt].
  - apply (Hsmall k); [lia|assumption].
  - destruct Hdiv as [m Hm].
    assert (Hm1 : 2 <= m) by nia.
    apply (Hsmall m); [|exists k; lia].
    split; [assumption|].
    destruct (Z.le_gt_cases m (Z.sqrt p)); [assumption|exfalso].
    pose proof (Z.sqrt_nonneg p).
    assert (Z.succ (Z.sqrt p) * Z.succ (Z.sqrt p) <= m * k)
      by (apply Z.mul_le_mono_nonneg; lia).
    cbv zeta in Hs. lia.
Qed.

(** The key pair of the examples: [p = 17], [q = 19], [e = 65537]. *)
Lemma example_key : valid_key 17 19 323 65537 161.
Proof.
  constructor; try (apply primeb_correct; vm_compute; reflexivity);
    try reflexivity; lia.
Qed.

(* ===================================================================== *)
(** * The RSA primitive and the chaining construction *)
(* ===================================================================== *)

Section Rsa.

Variables p q n e d : Z.
Hypothesis key : valid_key p q n e d.

Lemma key_modulus_pos : 5 < n.
Proof.
  destruct key as [Hp Hq Hne -> _ _ _].
  pose proof (prime_ge_2 p Hp). pose proof (prime_ge_2 q Hq). nia.
Qed.

(** Encrypting then decrypting a residue gives it back. *)
Lemma rsa_decrypt_encrypt (m : Z) :
  0 <= m < n ->
  rsa_encrypt m e n = Ok (m ^ e mod n) /\
  rsa_decrypt (m ^ e mod n) d n = Ok m.
Proof.
  intros Hm. pose proof key_modulus_pos as Hn.
  destruct key as [Hp Hq Hne Hpq He Hd Hinv].
  unfold rsa_encrypt, rsa_decrypt.
  pose proof (Z.mod_pos_bound (m ^ e) n ltac:(lia)).
  rewrite !mod_exp_nonneg by lia. split; [reflexivity|].
  rewrite Z.mod_pow_l, <- Z.pow_mul_r by lia.
  subst n. rewrite (rsa_identity p q e d m) by (assumption || lia).
  rewrite Z.mod_small by lia. reflexivity.
Qed.


End Rsa.

(** C2. RSA inverse law: for every valid key pair and every [m] in
    [0, n-1], [rsa_decrypt (rsa_encrypt m e n) d n] returns [m]. *)
Theorem rsa_inverse_law (p q n e d m : Z) :
  valid_key p q n e d ->
  0 <= m <= n - 1 ->
  (c <- rsa_encrypt m e n ;; rsa_decrypt c d n) = Ok m.
Proof.
  intros key Hm.
  destruct (rsa_decrypt_encrypt p q n e d key m ltac:(lia)) as [-> Hdec].
  exact Hdec.
Qed.

Lemma rsa_inverse_law_witness :
  (c <- rsa_encrypt 42 65537 323 ;; rsa_decrypt c 161 323) = Ok 42.
Proof.
  apply (rsa_inverse_law 17 19 323 65537 161 42); [exact example_key|lia].
Defined.

Section Chaining.

Variables p q n e d : Z.
Hypothesis key : valid_key p q n e d.
Hypothesis big : 255 < n.

(** What [cbc_encrypt] produces from any non-negative [prev]: a cipher
    that decrypts to the plaintext, one block per character, each block a
    residue whose decryption is a byte. *)
Lemma cbc_encrypt_from_spec (P : string) (prev : Z) :
  0 <= prev ->
  exists cipher,
    cbc_encrypt_from P e n prev = Ok cipher /\
    cbc_decrypt_from cipher d n prev = Ok P /\
    List.length cipher = String.length P /\
    Forall (fun c => 0 <= c < n /\ 0 <= c ^ d mod n < 256) cipher.
Proof.
  revert prev. induction P as [|ch rest IH]; intros prev Hprev.
  - exists []. cbn. repeat split; constructor.
  - pose proof (byte_of_char_bound ch) as Hm.
    pose proof (rem_256_bound prev Hprev) as Hk.
    pose proof (lxor_byte_bound _ _ Hm Hk) as Hx.
    set (x := Z.lxor (byte_of_char ch) (Z.rem prev 256)) in *.
    destruct (rsa_decrypt_encrypt p q n e d key x ltac:(lia)) as [Henc Hdec].
    pose proof (Z.mod_pos_bound (x ^ e) n ltac:(lia)) as Hc.
    destruct (IH (x ^ e mod n) ltac:(lia)) as (cipher & He & Hd & Hlen & Hall).
    exists (x ^ e mod n :: cipher).
    cbn [cbc_encrypt_from cbc_decrypt_from]. fold x.
    rewrite Henc. cbn [bind]. rewrite He. cbn [bind].
    rewrite Hdec. cbn [bind]. rewrite Hd. cbn [bind].
    repeat split.
    + unfold x. rewrite lxor_cancel_r, char_of_byte. reflexivity.
    + cbn. rewrite Hlen. reflexivity.
    + constructor; [|assumption].
      split; [lia|].
      assert (Hxd : (x ^ e mod n) ^ d mod n = x).
      { unfold rsa_decrypt in Hdec.
        destruct key as [_ _ _ _ _ Hdb _].
        rewrite mod_exp_nonneg in Hdec by lia. congruence. }
      rewrite Hxd. lia.
Qed.

End Chaining.

(** C1. Round trip: for every plaintext, every valid key pair with
    [e = 65537] and [n > 255], and every nonce [iv] in [1, n-1],
    decrypting the encryption of the plaintext returns the plaintext. *)
Theorem cbc_round_trip (p q n d iv : Z) (P : string) :
  valid_key p q n 65537 d ->
  255 < n ->
  1 <= iv <= n - 1 ->
  (cipher <- cbc_encrypt P 65537 n iv ;; cbc_decrypt cipher d n iv) = Ok P.
Proof.
  intros key big Hiv.
  destruct (cbc_encrypt_from_spec p q n 65537 d key big P iv ltac:(lia))
    as (cipher & Henc & Hdec & _).
  unfold cbc_encrypt, cbc_decrypt. rewrite Henc. exact Hdec.
Qed.

Lemma cbc_round_trip_witness :
  (cipher <- cbc_encrypt "Hello World!" 65537 323 123 ;;
   cbc_decrypt cipher 161 323 123) = Ok "Hello World!"%string.
Proof.
  apply (cbc_round_trip 17 19 323 161 123 "Hello World!");
    [exact example_key|lia|lia].
Defined.

Section Decryption.

Variables d n : Z.
Hypothesis d_nonneg : 0 <= d.
Hypothesis n_nonzero : n <> 0.

(** With a non-negative exponent and a non-zero modulus [cbc_decrypt]
    returns, and the string has one character per cipher block. *)
Lemma cbc_decrypt_from_total (cipher : list Z) (prev : Z) :
  exists plaintext,
    cbc_decrypt_from cipher d n prev = Ok plaintext /\
    String.length plaintext = List.length cipher.
Proof.
  revert prev. induction cipher as [|c rest IH]; intros prev.
  - exists EmptyString. split; reflexivity.
  - destruct (IH c) as (s & Hs & Hlen).
    cbn [cbc_decrypt_from]. unfold rsa_decrypt.
    rewrite mod_exp_rem by assumption. cbn [bind]. rewrite Hs. cbn [bind].
    eexists. split; [reflexivity|]. cbn. rewrite Hlen. reflexivity.
Qed.

(** Every decrypted character depends on its own cipher block and on the
    block before it, and on nothing else. *)
Lemma cbc_decrypt_from_char_at (cipher : list Z) (prev : Z) (j : nat) :
  char_at j (cbc_decrypt_from cipher d n prev)
  = option_map
      (fun c => char_of_cpp_int
                  (Z.lxor (Z.rem (c ^ d) n)
                          (Z.rem (block_before cipher prev j) 256)))
      (nth_error cipher j).
Proof.
  revert prev j. induction cipher as [|c rest IH]; intros prev j.
  - destruct j; reflexivity.
  - destruct (cbc_decrypt_from_total rest c) as (s & Hs & _).
    cbn [cbc_decrypt_from]. unfold rsa_decrypt.
    rewrite mod_exp_rem by assumption. cbn [bind]. rewrite Hs. cbn [bind].
    destruct j as [|j'].
    + reflexivity.
    + cbn [char_at String.get nth_error].
      change (String.get j' s) with (char_at j' (Ok s)).
      rewrite <- Hs, IH.
      destruct j'; reflexivity.
Qed.

End Decryption.





Section Flip.

Variables p q n e d iv : Z.
Variable P : string.
Variable cipher : list Z.
Hypothesis key : valid_key p q n e d.
Hypothesis big : 255 < n.
Hypothesis iv_range : 1 <= iv <= n - 1.
Hypothesis encrypted : cbc_encrypt P e n iv = Ok cipher.








End Flip.

Section LowByte.










Lemma replace_at_length (i : nat) (c' : Z) (cipher : list Z) :
  List.length (replace_at i c' cipher) = List.length cipher.
Proof.
  revert i. induction cipher as [|c rest IH]; intros i; [reflexivity|].
  destruct i as [|i']; cbn; [reflexivity|]. rewrite IH. reflexivity.
Qed.

End LowByte.

Section FlipExact.

Variables p q n e d iv : Z.
Variable P : string.
Variable cipher : list Z.
Hypothesis key : valid_key p q n e d.
Hypothesis big : 255 < n.
Hypothesis iv_range : 1 <= iv <= n - 1.
Hypothesis encrypted : cbc_encrypt P e n iv = Ok cipher.




End FlipExact.




(** Nor does the byte at the replaced position always change: for the
    plaintext ["!"] the residue [226] differs from the cipher block [38]
    and decrypts to the same character. *)
Lemma cbc_flip_same_byte :
  exists c c',
    cbc_encrypt "!" 65537 323 7 = Ok [c] /\ c' <> c /\ 0 <= c' < 323 /\
    cbc_decrypt [c'] 161 323 7 = Ok "!"%string.
Proof.
  exists 38, 226.
  vm_compute. repeat split; congruence.
Qed.

(** C9 (amended). For every cipher sequence, every exponent [d >= 0],
    every modulus [n > 0] and every [iv], [cbc_decrypt] returns a string
    with as many characters as the cipher sequence has elements. *)
Theorem cbc_decrypt_length (cipher : list Z) (d n iv : Z) :
  0 <= d -> 0 < n ->
  exists plaintext,
    cbc_decrypt cipher d n iv = Ok plaintext /\
    String.length plaintext = List.length cipher.
Proof.
  intros Hd Hn. apply cbc_decrypt_from_total; lia.
Qed.

Lemma cbc_decrypt_length_witness :
  exists plaintext,
    cbc_decrypt [317; -4; 1000] 161 323 (-9) = Ok plaintext /\
    String.length plaintext = List.length [317; -4; 1000].
Proof.
  apply (cbc_decrypt_length [317; -4; 1000] 161 323 (-9)); lia.
Defined.

(** C9, as stated for every [d], fails: with the negative exponent
    [d = -1] the modular exponentiation raises an exception on the first
    cipher block and no string is returned. *)
Lemma cbc_decrypt_negative_exponent :
  cbc_decrypt [2] (-1) 5 1 = Throw RuntimeError /\
  ~ (exists plaintext,
       cbc_decrypt [2] (-1) 5 1 = Ok plaintext /\
       String.length plaintext = List.length [2]).
Proof.
  split; [reflexivity|].
  intros (s & Hs & _). discriminate Hs.
Qed.

(* ===================================================================== *)
(** * The modular inverse *)
(* ===================================================================== *)

Section ModInverse.

Variables e phi : Z.
Hypothesis e_nonneg : 0 <= e.
Hypothesis phi_big : 1 < phi.

Lemma euclid_invariant_init : euclid_invariant phi e 0 1 phi e.
Proof using e_nonneg phi_big.
  unfold euclid_invariant. repeat split; try lia.
  - exists (-1). ring.
  - exists 0. ring.
Qed.

Lemma euclid_invariant_step (t new_t r new_r : Z) :
  new_r <> 0 ->
  euclid_invariant phi e t new_t r new_r ->
  euclid_invariant phi e new_t (t - Z.quot r new_r * new_t)
                   new_r (r - Z.quot r new_r * new_r).
Proof using phi_big.
  intros Hnz (Hr & Hnr & Hg & Ht & Hnt & Hsign & Hb).
  assert (Hq : 0 <= Z.quot r new_r) by (apply Z.quot_pos; lia).
  assert (Hrem : r - Z.quot r new_r * new_r = Z.rem r new_r)
    by (pose proof (Z.quot_rem' r new_r); lia).
  pose proof (Z.rem_bound_pos r new_r ltac:(lia) ltac:(lia)) as Hrb.
  set (k := Z.quot r new_r) in *.
  unfold euclid_invariant. repeat split.
  - lia.
  - lia.
  - rewrite <- Hg.
    replace (r - k * new_r) with (r + (- k) * new_r) by ring.
    rewrite Z.gcd_add_mult_diag_r. apply Z.gcd_comm.
  - assumption.
  - destruct Ht as [u Hu], Hnt as [v Hv]. exists (u - k * v).
    replace ((t - k * new_t) * e - (r - k * new_r))
      with ((t * e - r) - k * (new_t * e - new_r)) by ring.
    rewrite Hu, Hv. ring.
  - destruct Hsign as [(H1 & H2 & H3)|(H1 & H2 & H3)]; [right|left];
      repeat split; nia.
  - destruct Hsign as [(H1 & H2 & H3)|(H1 & H2 & H3)]; nia.
  - destruct Hsign as [(H1 & H2 & H3)|(H1 & H2 & H3)]; nia.
Qed.

(** The loop ends with the greatest common divisor in [r] and, in [t], a
    coefficient of magnitude at most [phi] with [t e = r] modulo [phi]. *)
Lemma mod_inverse_loop_spec (t new_t r new_r : Z) :
  euclid_invariant phi e t new_t r new_r ->
  Z.gcd phi e = snd (mod_inverse_loop t new_t r new_r) /\
  (phi | fst (mod_inverse_loop t new_t r new_r) * e
         - snd (mod_inverse_loop t new_t r new_r)) /\
  - phi <= fst (mod_inverse_loop t new_t r new_r) <= phi.
Proof using phi_big.
  funelim (mod_inverse_loop t new_t r new_r); intros Hinv.
  - destruct Hinv as (Hr & _ & Hg & Ht & _ & _ & Hb). cbn [fst snd].
    subst new_r. rewrite Z.gcd_0_r, Z.abs_eq in Hg by lia.
    repeat split; (assumption || lia).
  - apply H. apply euclid_invariant_step; assumption.
Qed.

End ModInverse.

Lemma inverse_mod_unique (e phi d d' : Z) :
  0 < phi -> 0 <= d < phi -> 0 <= d' < phi ->
  (e * d) mod phi = 1 -> (e * d') mod phi = 1 -> d' = d.
Proof.
  intros Hphi Hd Hd' H H'.
  assert (Hc : (d' * (e * d)) mod phi = (d * (e * d')) mod phi)
    by (f_equal; ring).
  rewrite <- (Zmult_mod_idemp_r (e * d)), H in Hc.
  rewrite <- (Zmult_mod_idemp_r (e * d')), H' in Hc.
  rewrite !Z.mul_1_r, !Z.mod_small in Hc by lia. exact Hc.
Qed.

(** C3. For non-negative [e] and [phi > 1]: when [gcd(e, phi) = 1],
    [mod_inverse e phi] is the unique [d] with [0 <= d < phi] and
    [(e * d) mod phi = 1]; otherwise it is [0]. *)
Theorem mod_inverse_correct (e phi : Z) :
  0 <= e -> 1 < phi ->
  (Z.gcd e phi = 1 ->
     0 <= mod_inverse e phi < phi /\
     (e * mod_inverse e phi) mod phi = 1 /\
     (forall d', 0 <= d' < phi -> (e * d') mod phi = 1 ->
                 d' = mod_inverse e phi)) /\
  (Z.gcd e phi <> 1 -> mod_inverse e phi = 0).
Proof.
  intros He Hphi.
  pose proof (mod_inverse_loop_spec e phi Hphi 0 1 phi e
                (euclid_invariant_init e phi He Hphi)) as (Hg & Hdiv & Hb).
  unfold mod_inverse.
  destruct (mod_inverse_loop 0 1 phi e) as [t r]. cbn [fst snd] in *.
  rewrite Z.gcd_comm in Hg.
  split.
  - intros Hcop. rewrite Hcop in Hg. subst r.
    destruct (Z.ltb_spec 1 1); [lia|].
    assert (Hne : forall k, t <> k * phi).
    { intros k ->. destruct Hdiv as [u Hu].
      assert (Hone : (phi | 1)) by (exists (k * e - u); lia).
      apply Z.divide_1_r_nonneg in Hone; lia. }
    assert (Hinv : forall a, (e * (t + a * phi)) mod phi = 1).
    { intros a. destruct Hdiv as [u Hu].
      replace (e * (t + a * phi)) with (1 + (u + e * a) * phi) by lia.
      rewrite Z_mod_plus_full. apply Z.mod_small. lia. }
    pose proof (Hne 1). pose proof (Hne (-1)).
    assert (Hres : 0 <= (if t <? 0 then t + phi else t) < phi /\
                   (e * (if t <? 0 then t + phi else t)) mod phi = 1).
    { destruct (Z.ltb_spec t 0).
      - split; [lia|]. replace (t + phi) with (t + 1 * phi) by ring.
        apply Hinv.
      - split; [lia|]. replace t with (t + 0 * phi) at 1 by ring.
        apply Hinv. }
    destruct Hres as [Hrange Hmod]. repeat split; try (assumption || lia).
    intros d' Hd' Hd'mod.
    apply (inverse_mod_unique e phi); (assumption || lia).
  - intros Hncop.
    assert (0 <= r) by (rewrite <- Hg; apply Z.gcd_nonneg).
    assert (r <> 0).
    { intros ->. apply Z.gcd_eq_0_r in Hg. lia. }
    destruct (Z.ltb_spec 1 r); [reflexivity|]. lia.
Qed.

Lemma mod_inverse_correct_witness :
  (Z.gcd 65537 288 = 1 ->
     0 <= mod_inverse 65537 288 < 288 /\
     (65537 * mod_inverse 65537 288) mod 288 = 1 /\
     (forall d', 0 <= d' < 288 -> (65537 * d') mod 288 = 1 ->
                 d' = mod_inverse 65537 288)) /\
  (Z.gcd 65537 288 <> 1 -> mod_inverse 65537 288 = 0).
Proof.
  apply (mod_inverse_correct 65537 288); lia.
Defined.

(* ===================================================================== *)
(** * The primality test and the prime candidates *)
(* ===================================================================== *)

(** C6. On its trivial cases [miller_rabin_test] returns without raising
    an exception, whatever the round count and the random bases: [false]
    for [n <= 1], [true] for [n = 2] and [n = 3], [false] for an even
    [n > 2]. *)
Theorem miller_rabin_trivial_cases (dis : nat -> Z) (n k : Z) :
  (n <= 1 -> miller_rabin_test dis n k = Ok false) /\
  (n = 2 \/ n = 3 -> miller_rabin_test dis n k = Ok true) /\
  (2 < n /\ Z.even n = true -> miller_rabin_test dis n k = Ok false).
Proof.
  unfold miller_rabin_test. repeat split.
  - intros Hn. destruct (Z.leb_spec n 1); [reflexivity|lia].
  - intros [-> | ->]; reflexivity.
  - intros [Hn Heven].
    destruct (Z.leb_spec n 1); [reflexivity|].
    rewrite Z.rem_mod_nonneg, Zmod_even, Heven by lia.
    destruct (Z.eqb_spec n 2); [lia|]. reflexivity.
Qed.

(** C10. With a round count [k <= 0] every odd [n >= 5] is declared
    probably prime: the witness loop runs zero times. *)
Theorem miller_rabin_no_rounds (dis : nat -> Z) (n k : Z) :
  k <= 0 -> 5 <= n -> Z.odd n = true ->
  miller_rabin_test dis n k = Ok true.
Proof.
  intros Hk Hn Hodd. unfold miller_rabin_test.
  destruct (Z.leb_spec n 1); [lia|].
  rewrite Z.rem_mod_nonneg, Zmod_odd, Hodd by lia.
  cbn [Z.eqb andb orb].
  destruct (Z.eqb_spec n 2); [lia|]. destruct (Z.eqb_spec n 3); [lia|].
  cbn [orb].
  destruct (n - 1) as [|d|d] eqn:Hd; [lia| |lia].
  cbn [decompose bind]. destruct (strip_twos d 0) as [d' s].
  replace (Z.to_nat k) with O by lia. reflexivity.
Qed.

Lemma miller_rabin_no_rounds_witness :
  miller_rabin_test (fun _ => 2) 9 0 = Ok true.
Proof.
  apply (miller_rabin_no_rounds (fun _ => 2) 9 0); [lia|lia|reflexivity].
Defined.

Lemma below_pow2_bit_clear (v k : Z) :
  0 <= k -> 0 <= v < 2 ^ k -> Z.testbit v k = false.
Proof.
  intros Hk Hv. destruct (Z.eq_dec v 0) as [->|Hne].
  - apply Z.bits_0.
  - apply Z.bits_above_log2; [lia|]. apply Z.log2_lt_pow2; lia.
Qed.

(** Forcing the top bit of a [bits]-wide value and its lowest bit. *)
Lemma forced_bits_range (r bits : Z) :
  1 < bits -> 0 <= r < 2 ^ bits ->
  2 ^ (bits - 1) <= Z.lor r (Z.lor (2 ^ (bits - 1)) 1) < 2 ^ bits /\
  Z.odd (Z.lor r (Z.lor (2 ^ (bits - 1)) 1)) = true.
Proof.
  intros Hbits Hr.
  set (v := Z.lor r (Z.lor (2 ^ (bits - 1)) 1)).
  assert (Htop : 0 < 2 ^ (bits - 1)) by (apply Z.pow_pos_nonneg; lia).
  assert (Hv0 : 0 <= v).
  { unfold v. rewrite !Z.lor_nonneg. lia. }
  assert (Hbit : Z.testbit v (bits - 1) = true).
  { unfold v. rewrite !Z.lor_spec, Z.pow2_bits_true by lia.
    rewrite orb_true_r. reflexivity. }
  repeat split.
  - destruct (Z.lt_ge_cases v (2 ^ (bits - 1))) as [Hlt|]; [|assumption].
    rewrite below_pow2_bit_clear in Hbit by lia. discriminate.
  - assert (Hpos : 0 < v).
    { destruct (Z.eq_dec v 0) as [H0|]; [|lia].
      rewrite H0, Z.bits_0 in Hbit. discriminate. }
    apply Z.log2_lt_pow2; [assumption|]. unfold v.
    rewrite !Z.log2_lor by (try rewrite Z.lor_nonneg; lia).
    rewrite Z.log2_pow2 by lia. cbn [Z.log2].
    assert (Z.log2 r < bits).
    { destruct (Z.eq_dec r 0) as [->|]; [cbn; lia|].
      apply Z.log2_lt_pow2; lia. }
    lia.
  - rewrite <- Z.bit0_odd. unfold v. rewrite !Z.lor_spec.
    rewrite (Z.bit0_odd 1). cbn [Z.odd]. rewrite !orb_true_r. reflexivity.
Qed.

(** [random_number] returns for every [bits > 1], whatever the engine
    yields, and the value has exactly [bits] bits and is odd. *)
Lemma random_number_spec (gen : nat -> Z) (bits : Z) :
  1 < bits ->
  exists v, random_number gen bits = Ok v /\
            2 ^ (bits - 1) <= v < 2 ^ bits /\ Z.odd v = true.
Proof.
  intros Hbits. unfold random_number, Boost.shl.
  destruct (Z.ltb_spec bits 0); [lia|]. cbn [bind].
  destruct (Z.ltb_spec (bits - 1) 0); [lia|]. cbn [bind].
  eexists. split; [reflexivity|].
  rewrite !Z.shiftl_1_l.
  replace (2 ^ bits - 1) with (Z.ones bits) by (rewrite Z.ones_equiv; lia).
  rewrite Z.land_ones by lia.
  apply forced_bits_range; [assumption|].
  apply Z.mod_pos_bound. apply Z.pow_pos_nonneg; lia.
Qed.

Lemma generate_prime_candidate (fuel : nat) (rnd : entropy) (bits : Z)
  (g g' : nat) (v : Z) :
  generate_prime fuel rnd bits g = Ok (v, g') ->
  exists k, random_number (mt_word rnd k) bits = Ok v /\
            miller_rabin_test (dis_sample rnd k) v 10 = Ok true.
Proof.
  revert g. induction fuel as [|fuel IH]; intros g H; [discriminate|].
  cbn [generate_prime] in H.
  destruct (random_number (mt_word rnd g) bits) as [c| |] eqn:Hc;
    try discriminate.
  cbn [bind] in H.
  destruct (miller_rabin_test (dis_sample rnd g) c 10) as [[|]| |] eqn:Ht;
    try discriminate; cbn [bind] in H.
  - injection H as <- <-. exists g. split; assumption.
  - apply IH in H. exact H.
Qed.

(** With enough iterations allowed, [generate_prime] returns the first
    candidate that passes the test. *)
Lemma generate_prime_first_pass (rnd : entropy) (bits v : Z) (k : nat) :
  forall (fuel g : nat),
  (forall j, (j < k)%nat ->
     exists c, random_number (mt_word rnd (g + j)) bits = Ok c /\
               miller_rabin_test (dis_sample rnd (g + j)) c 10 = Ok false) ->
  random_number (mt_word rnd (g + k)) bits = Ok v ->
  miller_rabin_test (dis_sample rnd (g + k)) v 10 = Ok true ->
  (k < fuel)%nat ->
  generate_prime fuel rnd bits g = Ok (v, S (g + k)).
Proof.
  induction k as [|k IH]; intros fuel g Hfail Hv Hpass Hfuel;
    (destruct fuel as [|fuel]; [lia|]); cbn [generate_prime].
  - rewrite Nat.add_0_r in *. rewrite Hv. cbn [bind]. rewrite Hpass.
    reflexivity.
  - destruct (Hfail O ltac:(lia)) as (c & Hc & Hcf).
    rewrite Nat.add_0_r in *. rewrite Hc. cbn [bind]. rewrite Hcf.
    cbn [bind]. replace (S (g + S k)) with (S (S g + k)) by lia.
    apply IH; try lia.
    + intros j Hj. replace (S g + j)%nat with (g + S j)%nat by lia.
      apply Hfail. lia.
    + replace (S g + k)%nat with (g + S k)%nat by lia. assumption.
    + replace (S g + k)%nat with (g + S k)%nat by lia. assumption.
Qed.

(* ===================================================================== *)
(** * Key generation *)
(* ===================================================================== *)

(** What [generate_rsa_keys] returns, when it returns: the product of two
    values of [generate_prime], [65537], and whatever [mod_inverse] gives
    for them; nothing is retried on a zero exponent. *)
Lemma generate_rsa_keys_returns (fuel : nat) (rnd : entropy) (bits n e d : Z) :
  generate_rsa_keys fuel rnd bits = Ok (n, e, d) ->
  exists p q, n = p * q /\ e = 65537 /\
              d = mod_inverse 65537 ((p - 1) * (q - 1)).
Proof.
  unfold generate_rsa_keys. intros H.
  destruct (generate_prime fuel rnd (Z.quot bits 2) 0) as [[p g1]| |];
    try discriminate; cbn [bind] in H.
  destruct (generate_prime fuel rnd (Z.quot bits 2) g1) as [[q0 g2]| |];
    try discriminate; cbn [bind] in H.
  destruct (resample_while_equal fuel rnd (Z.quot bits 2) p q0 g2)
    as [[q g3]| |]; try discriminate; cbn [bind] in H.
  injection H as <- <- <-. exists p, q. repeat split.
Qed.

(** C4 fails on the code: for a 40-bit modulus and a run whose first
    candidate is the prime [917519 = 14 * 65537 + 1], [generate_rsa_keys]
    returns the private exponent [d = 0], although both factors are
    distinct primes; [65537] divides [(p - 1) (q - 1)] and the generation
    is not restarted. *)
Theorem generate_rsa_keys_zero_exponent :
  generate_rsa_keys 1 unlucky_entropy 40
  = Ok (917519 * 524309, 65537, 0) /\
  prime 917519 /\ prime 524309 /\
  Z.gcd 65537 ((917519 - 1) * (524309 - 1)) = 65537 /\
  (65537 * 0) mod ((917519 - 1) * (524309 - 1)) <> 1.
Proof.
  split; [vm_compute; reflexivity|].
  split; [apply primeb_correct; vm_compute; reflexivity|].
  split; [apply primeb_correct; vm_compute; reflexivity|].
  split; [vm_compute; reflexivity|].
  vm_compute. discriminate.
Qed.

(* ===================================================================== *)
(** * The server's message loop *)
(* ===================================================================== *)

Section ServerLoop.

Variables d n : Z.

(** A payload without the delimiter is reported and dropped. *)
Lemma handle_message_no_delimiter (buffer : string) :
  index 0 "|" (Server.c_str buffer) = None ->
  Server.handle_message d n buffer
  = Ok (Server.Dropped "Invalid data format.").
Proof.
  intros H. unfold Server.handle_message. rewrite H. reflexivity.
Qed.

(** A nonce field that is no integer is not caught: the exception of the
    [cpp_int] constructor leaves the handler. *)
Lemma handle_message_bad_nonce (buffer : string) (pos : nat) (e : exn) :
  index 0 "|" (Server.c_str buffer) = Some pos ->
  Boost.cpp_int_of_string (substring 0 pos (Server.c_str buffer)) = Throw e ->
  Server.handle_message d n buffer = Throw e.
Proof.
  intros H He. unfold Server.handle_message. rewrite H, He. reflexivity.
Qed.

(** A dropped or answered message lets the loop go on with the next. *)
Lemma serve_continues (buffer : string) (rest : list string)
  (h : Server.handled) :
  Server.handle_message d n buffer = Ok h ->
  Server.serve d n (buffer :: rest)
  = (hs <- Server.serve d n rest ;; Ok (h :: hs)).
Proof.
  intros H. cbn [Server.serve]. rewrite H. reflexivity.
Qed.

(** An exception in one message ends the loop: nothing after it is
    handled. *)
Lemma serve_aborts (buffer : string) (rest : list string) (e : exn) :
  Server.handle_message d n buffer = Throw e ->
  Server.serve d n (buffer :: rest) = Throw e.
Proof.
  intros H. cbn [Server.serve]. rewrite H. reflexivity.
Qed.

End ServerLoop.

(** C8 fails on the code for an unparsable integer: with the key
    [(d, n) = (161, 323)], the payloads ["abc|317,50"] (bad nonce) and
    ["296|317,5x"] (bad cipher block) raise std::runtime_error out of the
    handler, and the well-formed message that follows is never answered;
    a payload without the delimiter is dropped and the loop goes on. *)
Theorem server_unparsable_integer_aborts :
  Server.handle_message 161 323 "abc|317,50" = Throw RuntimeError /\
  Server.handle_message 161 323 "296|317,5x" = Throw RuntimeError /\
  Server.serve 161 323 ["abc|317,50"; "296|317,50"]%string
  = Throw RuntimeError /\
  Server.serve 161 323 ["garbage-no-delimiter"; "296|317,50"]%string
  = Ok [Server.Dropped "Invalid data format.";
        Server.Answered ("Message received: Hi" ++ Server.crlf)].
Proof.
  repeat split; vm_compute; reflexivity.
Qed.

(* ===================================================================== *)
(** * Strings on the wire *)
(* ===================================================================== *)

Section Strings.

Local Open Scope string_scope.

Lemma all_chars_impl (P Q : ascii -> Prop) (s : string) :
  (forall ch, P ch -> Q ch) -> all_chars P s -> all_chars Q s.
Proof.
  intros HPQ. induction s as [|ch s IH]; cbn; [trivial|].
  intros [H1 H2]. split; auto.
Qed.

Lemma all_chars_app (P : ascii -> Prop) (a b : string) :
  all_chars P (a ++ b) <-> all_chars P a /\ all_chars P b.
Proof.
  induction a as [|ch a IH]; cbn; [tauto|]. rewrite IH. tauto.
Qed.

Lemma length_app (a b : string) :
  length (a ++ b) = (length a + length b)%nat.
Proof. induction a as [|ch a IH]; cbn; [reflexivity|]. rewrite IH. reflexivity. Qed.

Lemma append_empty_r (a : string) : a ++ "" = a.
Proof. induction a as [|ch a IH]; cbn; [reflexivity|]. rewrite IH. reflexivity. Qed.

Lemma append_assoc (a b c : string) : (a ++ b) ++ c = a ++ (b ++ c).
Proof. induction a as [|ch a IH]; cbn; [reflexivity|]. rewrite IH. reflexivity. Qed.

(** [find] of a character returns the position of its first occurrence. *)
Lemma index_first (c : ascii) (a b : string) :
  all_chars (fun ch => ch <> c) a ->
  index 0 (String c "") (a ++ String c b) = Some (length a).
Proof.
  induction a as [|ch a IH]; intros Ha.
  - cbn. destruct (ascii_dec c c) as [_|Hne]; [|contradiction].
    destruct b; reflexivity.
  - destruct Ha as [Hch Ha]. cbn.
    destruct (ascii_dec c ch) as [Heq|_]; [congruence|].
    change (index 0 (String c "") (a ++ String c b)) with
      (index 0 (String c "") (a ++ String c b)).
    rewrite (IH Ha). reflexivity.
Qed.

(** [find] of a character that does not occur returns [npos]. *)
Lemma index_absent (c : ascii) (a : string) :
  all_chars (fun ch => ch <> c) a -> index 0 (String c "") a = None.
Proof.
  induction a as [|ch a IH]; intros Ha; [reflexivity|].
  destruct Ha as [Hch Ha]. cbn.
  destruct (ascii_dec c ch) as [Heq|_]; [congruence|].
  rewrite (IH Ha). reflexivity.
Qed.

Lemma substring_prefix (a b : string) : substring 0 (length a) (a ++ b) = a.
Proof.
  induction a as [|ch a IH]; cbn.
  - destruct b; reflexivity.
  - rewrite IH. reflexivity.
Qed.

Lemma substring_all (b : string) : substring 0 (length b) b = b.
Proof.
  rewrite <- (append_empty_r b) at 2. apply substring_prefix.
Qed.

Lemma substring_suffix (a b : string) :
  substring (length a) (length b) (a ++ b) = b.
Proof.
  induction a as [|ch a IH]; cbn; [apply substring_all|exact IH].
Qed.

(** The two [substr] calls around the delimiter give back the fields. *)
Lemma split_fields (c : ascii) (a b : string) :
  substring 0 (length a) (a ++ String c b) = a /\
  substring (S (length a)) (length (a ++ String c b) - S (length a))
            (a ++ String c b) = b.
Proof.
  split; [apply substring_prefix|].
  rewrite length_app. cbn [length].
  replace (length a + S (length b) - S (length a))%nat with (length b) by lia.
  change (String c b) with (String c "" ++ b).
  rewrite <- append_assoc.
  replace (S (length a)) with (length (a ++ String c "")).
  - apply substring_suffix.
  - rewrite length_app. cbn. lia.
Qed.

Lemma c_str_no_nul (s : string) :
  all_chars (fun ch => ch <> "000"%char) s -> Server.c_str s = s.
Proof.
  induction s as [|ch s IH]; intros Hs; [reflexivity|].
  destruct Hs as [Hch Hs]. cbn.
  destruct (Ascii.eqb_spec ch "000"%char) as [Heq|_]; [contradiction|].
  rewrite (IH Hs). reflexivity.
Qed.

End Strings.

(* ===================================================================== *)
(** * Decimal integers on the wire *)
(* ===================================================================== *)

Section Decimal.

Local Open Scope string_scope.

Lemma byte_of_digit_char (d : Z) :
  0 <= d < 10 -> byte_of_char (Boost.digit_char d) = 48 + d.
Proof.
  intros Hd. unfold byte_of_char, Boost.digit_char.
  rewrite N_ascii_embedding by lia. lia.
Qed.

Lemma digit_value_digit_char (d : Z) :
  0 <= d < 10 -> Boost.digit_value 10 (Boost.digit_char d) = Some d.
Proof.
  intros Hd. unfold Boost.digit_value.
  change (Z.of_N (N_of_ascii (Boost.digit_char d)))
    with (byte_of_char (Boost.digit_char d)).
  rewrite byte_of_digit_char by assumption.
  destruct (Z.leb_spec 48 (48 + d)); [|lia].
  destruct (Z.leb_spec (48 + d) 57); [|lia]. cbn [andb].
  replace (48 + d - 48) with d by lia.
  destruct (Z.ltb_spec d 10); [reflexivity|lia].
Qed.

(** Reading the digits of [z] shifts the accumulator and adds [z]. *)
Lemma digits_of_parse (z : Z) (s : string) :
  0 <= z ->
  exists k, 0 <= k /\
    forall a, Boost.parse_digits 10 a (Boost.digits_of z s)
              = Boost.parse_digits 10 (a * 10 ^ k + z) s.
Proof.
  funelim (Boost.digits_of z s); intros Hz.
  - exists 1. split; [lia|]. intros a. cbn [Boost.parse_digits].
    rewrite digit_value_digit_char by lia. f_equal; lia.
  - destruct (H ltac:(apply Z.div_pos; lia)) as (k & Hk & Hparse).
    exists (k + 1). split; [lia|]. intros a.
    rewrite Hparse. cbn [Boost.parse_digits].
    rewrite digit_value_digit_char by (apply Z.mod_pos_bound; lia).
    f_equal. rewrite Z.pow_add_r, Z.pow_1_r by lia.
    pose proof (Z.div_mod z 10 ltac:(lia)). lia.
Qed.

(** The digits of a positive number start with a digit from 1 to 9. *)
Lemma digits_of_head (z : Z) (s : string) :
  0 < z ->
  exists c t, Boost.digits_of z s = String c t /\
              49 <= byte_of_char c <= 57.
Proof.
  funelim (Boost.digits_of z s); intros Hz.
  - eexists _, _. split; [reflexivity|].
    rewrite byte_of_digit_char by lia. lia.
  - apply H. apply Z.div_str_pos. lia.
Qed.

Lemma digits_of_all_digits (z : Z) (s : string) :
  0 <= z -> all_chars is_digit s -> all_chars is_digit (Boost.digits_of z s).
Proof.
  funelim (Boost.digits_of z s); intros Hz Hs.
  - split; [|assumption]. unfold is_digit.
    rewrite byte_of_digit_char by lia. lia.
  - apply H; [apply Z.div_pos; lia|].
    split; [|assumption]. unfold is_digit.
    pose proof (Z.mod_pos_bound z 10 ltac:(lia)).
    rewrite byte_of_digit_char by lia. lia.
Qed.

Lemma str_all_digits (z : Z) : 0 <= z -> all_chars is_digit (Boost.str z).
Proof.
  intros Hz. unfold Boost.str. destruct (Z.ltb_spec z 0); [lia|].
  apply digits_of_all_digits; [assumption|exact I].
Qed.

Lemma str_nonempty (z : Z) : 0 <= z -> Boost.str z <> "".
Proof.
  intros Hz. unfold Boost.str. destruct (Z.ltb_spec z 0); [lia|].
  destruct (Z.eq_dec z 0) as [->|Hne]; [discriminate|].
  destruct (digits_of_head z "" ltac:(lia)) as (c & t & -> & _).
  discriminate.
Qed.

(** A string that starts with neither ['-'] nor ['0'] is read in base
    ten. *)
Lemma cpp_int_of_string_decimal (c : ascii) (t : string) :
  c <> "-"%char -> c <> "0"%char ->
  Boost.cpp_int_of_string (String c t)
  = Boost.parse_digits 10 0 (String c t).
Proof.
  intros Hm H0. unfold Boost.cpp_int_of_string.
  destruct c as [[|] [|] [|] [|] [|] [|] [|] [|]];
    try congruence;
    cbv beta iota zeta;
    destruct (Boost.parse_digits 10 0 _); reflexivity.
Qed.

(** The constructor from a string reads back what [str] printed. *)
Lemma cpp_int_of_string_str (z : Z) :
  0 <= z -> Boost.cpp_int_of_string (Boost.str z) = Ok z.
Proof.
  intros Hz. destruct (Z.eq_dec z 0) as [->|Hne]; [reflexivity|].
  unfold Boost.str. destruct (Z.ltb_spec z 0); [lia|].
  destruct (digits_of_head z "" ltac:(lia)) as (c & t & Heq & Hc).
  destruct (digits_of_parse z "" Hz) as (k & Hk & Hparse).
  rewrite Heq in *.
  rewrite cpp_int_of_string_decimal.
  - rewrite Hparse. cbn. reflexivity.
  - intros ->. cbn in Hc. lia.
  - intros ->. cbn in Hc. lia.
Qed.

End Decimal.

(* ===================================================================== *)
(** * The public key and the messages between client and server *)
(* ===================================================================== *)

Section Wire.

Local Open Scope string_scope.

Lemma digit_not_special (ch : ascii) :
  is_digit ch ->
  ch <> "|"%char /\ ch <> ","%char /\ ch <> "000"%char.
Proof.
  unfold is_digit. intros H.
  repeat split; intros ->; cbn in H; lia.
Qed.

Lemma str_no_char (z : Z) (c : ascii) :
  0 <= z -> ~ is_digit c -> all_chars (fun ch => ch <> c) (Boost.str z).
Proof.
  intros Hz Hc. apply (all_chars_impl is_digit); [|apply str_all_digits, Hz].
  intros ch Hch ->. contradiction.
Qed.

Lemma bar_not_digit : ~ is_digit "|"%char.
Proof. unfold is_digit. cbn. lia. Qed.

Lemma comma_not_digit : ~ is_digit ","%char.
Proof. unfold is_digit. cbn. lia. Qed.

Lemma nul_not_digit : ~ is_digit "000"%char.
Proof. unfold is_digit. cbn. lia. Qed.

Lemma getline_all_single (s : string) :
  s <> "" -> all_chars (fun ch => ch <> ","%char) s ->
  Server.getline_all "," s = [s].
Proof.
  induction s as [|ch s IH]; intros Hne Hs; [contradiction|].
  destruct Hs as [Hch Hs]. cbn [Server.getline_all].
  destruct (Ascii.eqb_spec ch ","%char) as [|_]; [contradiction|].
  destruct s as [|ch' s']; [reflexivity|].
  rewrite IH; [reflexivity|discriminate|assumption].
Qed.

Lemma getline_all_cons (s t : string) :
  all_chars (fun ch => ch <> ","%char) s ->
  Server.getline_all "," (s ++ "," ++ t) = s :: Server.getline_all "," t.
Proof.
  induction s as [|ch s IH]; intros Hs.
  - reflexivity.
  - destruct Hs as [Hch Hs]. cbn [append Server.getline_all].
    destruct (Ascii.eqb_spec ch ","%char) as [|_]; [contradiction|].
    change (s ++ String "," t) with (s ++ "," ++ t).
    rewrite (IH Hs). reflexivity.
Qed.

Lemma parse_blocks_cons (c : Z) (blocks : list string) :
  0 <= c ->
  Server.parse_blocks (Boost.str c :: blocks)
  = (cipher <- Server.parse_blocks blocks ;; Ok (c :: cipher)).
Proof.
  intros Hc. cbn [Server.parse_blocks].
  pose proof (str_nonempty c Hc) as Hne.
  pose proof (cpp_int_of_string_str c Hc) as Hparse.
  destruct (Boost.str c) as [|ch t]; [contradiction|].
  rewrite Hparse. reflexivity.
Qed.

(** The server reads back the blocks the client joined with commas. *)
Lemma parse_join_blocks (cipher : list Z) :
  Forall (fun c => 0 <= c) cipher ->
  Server.parse_blocks (Server.getline_all "," (Client.join_blocks cipher))
  = Ok cipher.
Proof.
  induction 1 as [|c rest Hc Hrest IH]; [reflexivity|].
  cbn [Client.join_blocks]. destruct rest as [|c2 rest'].
  - rewrite getline_all_single;
      [|apply str_nonempty, Hc|apply str_no_char, comma_not_digit; exact Hc].
    rewrite parse_blocks_cons by assumption. reflexivity.
  - rewrite getline_all_cons by (apply str_no_char, comma_not_digit; exact Hc).
    rewrite parse_blocks_cons by assumption. rewrite IH. reflexivity.
Qed.

Lemma join_blocks_chars (cipher : list Z) :
  Forall (fun c => 0 <= c) cipher ->
  all_chars (fun ch => ch <> "|"%char /\ ch <> "000"%char)
            (Client.join_blocks cipher).
Proof.
  assert (Hstr : forall c, 0 <= c ->
            all_chars (fun ch => ch <> "|"%char /\ ch <> "000"%char)
                      (Boost.str c)).
  { intros c Hc. apply (all_chars_impl is_digit); [|apply str_all_digits, Hc].
    intros ch Hch. apply digit_not_special in Hch. tauto. }
  induction 1 as [|c rest Hc Hrest IH]; [exact I|].
  cbn [Client.join_blocks]. destruct rest as [|c2 rest'].
  - apply Hstr, Hc.
  - apply all_chars_app. split; [apply Hstr, Hc|].
    split; [split; discriminate|exact IH].
Qed.

(** A payload [<integer>|<rest>] without NUL is split at the delimiter. *)
Lemma wire_fields (z : Z) (rest : string) :
  0 <= z ->
  all_chars (fun ch => ch <> "000"%char) rest ->
  let wire := Boost.str z ++ "|" ++ rest in
  Server.c_str wire = wire /\
  index 0 "|" wire = Some (length (Boost.str z)) /\
  substring 0 (length (Boost.str z)) wire = Boost.str z /\
  substring (S (length (Boost.str z)))
            (length wire - S (length (Boost.str z))) wire = rest.
Proof.
  intros Hz Hrest wire. subst wire.
  change (Boost.str z ++ "|" ++ rest) with (Boost.str z ++ String "|" rest).
  repeat split.
  - apply c_str_no_nul. apply all_chars_app. split.
    + apply str_no_char; [assumption|apply nul_not_digit].
    + split; [discriminate|assumption].
  - apply index_first. apply str_no_char; [assumption|apply bar_not_digit].
  - apply split_fields.
  - apply split_fields.
Qed.

End Wire.

(** X1. The client reads back the public key the server publishes: for
    non-negative [e] and [n], parsing the message [e.str() + "|" +
    n.str()] gives the key [(e, n)]. *)
Theorem public_key_round_trip (e n : Z) :
  0 <= e -> 0 <= n ->
  Client.parse_public_key (Server.public_key_message e n)
  = Ok (Client.PublicKey e n).
Proof.
  intros He Hn. unfold Client.parse_public_key, Server.public_key_message.
  destruct (wire_fields e (Boost.str n) He
              (str_no_char n _ Hn nul_not_digit))
    as (Hc & Hi & Hs1 & Hs2).
  rewrite Hc, Hi, Hs1, Hs2.
  rewrite !cpp_int_of_string_str by assumption. reflexivity.
Qed.

Lemma public_key_round_trip_witness :
  Client.parse_public_key (Server.public_key_message 65537 323)
  = Ok (Client.PublicKey 65537 323).
Proof.
  apply (public_key_round_trip 65537 323); lia.
Defined.

(** X2. End to end: for a valid key pair with [n > 255] and a nonce in
    [1, n-1], the payload the client builds for a message is answered by
    the server's handler with ["Message received: "], the message itself
    and CR LF. *)
Theorem client_message_answered (p q n e d nonce : Z) (message : string) :
  valid_key p q n e d -> 255 < n -> 1 <= nonce <= n - 1 ->
  exists wire,
    Client.encode_message e n nonce message = Ok wire /\
    Server.handle_message d n wire
    = Ok (Server.Answered
            ("Message received: " ++ message ++ Server.crlf)%string).
Proof.
  intros key big Hnonce.
  destruct (rsa_decrypt_encrypt p q n e d key nonce ltac:(lia))
    as [Henc Hdec].
  destruct (cbc_encrypt_from_spec p q n e d key big message nonce ltac:(lia))
    as (cipher & Hcbc & Hback & _ & Hall).
  assert (Hnonneg : Forall (fun c => 0 <= c) cipher).
  { eapply Forall_impl; [|exact Hall]. cbn. intros c Hc. lia. }
  pose proof (Z.mod_pos_bound (nonce ^ e) n ltac:(lia)) as Hen.
  unfold Client.encode_message, cbc_encrypt.
  rewrite Henc. cbn [bind]. rewrite Hcbc. cbn [bind].
  eexists. split; [reflexivity|].
  unfold Server.handle_message.
  destruct (wire_fields (nonce ^ e mod n) (Client.join_blocks cipher)
              ltac:(lia)) as (Hc & Hi & Hs1 & Hs2).
  { eapply all_chars_impl; [|apply join_blocks_chars, Hnonneg].
    cbn. tauto. }
  rewrite Hc, Hi, Hs1, Hs2.
  rewrite cpp_int_of_string_str by lia. cbn [bind].
  rewrite Hdec. cbn [bind].
  rewrite parse_join_blocks by assumption. cbn [bind].
  unfold cbc_decrypt. rewrite Hback. reflexivity.
Qed.

Lemma client_message_answered_witness :
  exists wire,
    Client.encode_message 65537 323 7 "Hello World!" = Ok wire /\
    Server.handle_message 161 323 wire
    = Ok (Server.Answered
            ("Message received: " ++ "Hello World!" ++ Server.crlf)%string).
Proof.
  apply (client_message_answered 17 19 323 65537 161 7 "Hello World!");
    [exact example_key|lia|lia].
Defined.

(* ===================================================================== *)
(** * More on the chaining construction *)
(* ===================================================================== *)

Lemma bind_ret {A : Type} (m : result A) : (x <- m ;; Ok x) = m.
Proof. destruct m; reflexivity. Qed.

Lemma last_cons_default (c : Z) (l : list Z) (iv : Z) :
  last (c :: l) iv = last l c.
Proof.
  revert c iv. induction l as [|c' l IH]; intros c iv; [reflexivity|].
  change (last (c :: c' :: l) iv) with (last (c' :: l) iv).
  rewrite (IH c' iv), (IH c' c). reflexivity.
Qed.

(** X3. With a non-negative exponent, a positive modulus and a
    non-negative [iv], [cbc_encrypt] returns one block per character of
    the plaintext, and every block lies in [0, n-1]. *)
Theorem cbc_encrypt_blocks (P : string) (e n iv : Z) :
  0 <= e -> 0 < n -> 0 <= iv ->
  exists cipher,
    cbc_encrypt P e n iv = Ok cipher /\
    List.length cipher = String.length P /\
    Forall (fun c => 0 <= c < n) cipher.
Proof.
  intros He Hn. unfold cbc_encrypt. revert iv.
  induction P as [|ch rest IH]; intros prev Hprev.
  - exists []. repeat split; constructor.
  - pose proof (byte_of_char_bound ch) as Hm.
    pose proof (rem_256_bound prev Hprev) as Hk.
    pose proof (lxor_byte_bound _ _ Hm Hk) as Hx.
    set (x := Z.lxor (byte_of_char ch) (Z.rem prev 256)) in *.
    pose proof (Z.mod_pos_bound (x ^ e) n Hn) as Hc.
    destruct (IH (x ^ e mod n) ltac:(lia)) as (cipher & Henc & Hlen & Hall).
    exists (x ^ e mod n :: cipher).
    cbn [cbc_encrypt_from]. fold x. unfold rsa_encrypt.
    rewrite mod_exp_nonneg by lia. cbn [bind]. rewrite Henc. cbn [bind].
    repeat split.
    + cbn. rewrite Hlen. reflexivity.
    + constructor; assumption.
Qed.

Lemma cbc_encrypt_blocks_witness :
  exists cipher,
    cbc_encrypt "Hi" 65537 323 7 = Ok cipher /\
    List.length cipher = String.length "Hi" /\
    Forall (fun c => 0 <= c < 323) cipher.
Proof.
  apply (cbc_encrypt_blocks "Hi" 65537 323 7); lia.
Defined.

(** X4. Chaining composes over concatenation: the cipher of [P ++ Q] is
    the cipher of [P] followed by the cipher of [Q] under the last block
    of the former (or [iv] when [P] is empty) as initialization vector;
    an exception in either part is the exception of the whole. *)
Theorem cbc_encrypt_app (P Q : string) (e n iv : Z) :
  cbc_encrypt (P ++ Q) e n iv
  = (cP <- cbc_encrypt P e n iv ;;
     cQ <- cbc_encrypt Q e n (last cP iv) ;;
     Ok (cP ++ cQ)).
Proof.
  unfold cbc_encrypt. revert iv.
  induction P as [|ch rest IH]; intros prev.
  - cbn [append cbc_encrypt_from bind last app]. symmetry. apply bind_ret.
  - cbn [append cbc_encrypt_from].
    destruct (rsa_encrypt (Z.lxor (byte_of_char ch) (Z.rem prev 256)) e n)
      as [c| |]; cbn [bind]; try reflexivity.
    rewrite IH.
    destruct (cbc_encrypt_from rest e n c) as [cP| |]; cbn [bind];
      try reflexivity.
    rewrite last_cons_default.
    destruct (cbc_encrypt_from Q e n (last cP c)) as [cQ| |]; reflexivity.
Qed.

(** X5. Only the low byte of the initialization vector enters the
    cipher: for a valid key pair with [n > 255], two non-negative vectors
    give the same cipher of a non-empty plaintext exactly when they agree
    modulo 256. *)
Theorem cbc_encrypt_iv_low_byte
  (p q n e d iv iv' : Z) (ch : ascii) (rest : string) :
  valid_key p q n e d -> 255 < n -> 0 <= iv -> 0 <= iv' ->
  (cbc_encrypt (String ch rest) e n iv = cbc_encrypt (String ch rest) e n iv'
   <-> iv mod 256 = iv' mod 256).
Proof.
  intros key big Hiv Hiv'.
  pose proof (byte_of_char_bound ch) as Hm.
  pose proof (rem_256_bound iv Hiv) as Hk.
  pose proof (rem_256_bound iv' Hiv') as Hk'.
  rewrite <- !Z.rem_mod_nonneg by lia.
  unfold cbc_encrypt. cbn [cbc_encrypt_from].
  split.
  - intros Heq.
    pose proof (lxor_byte_bound _ _ Hm Hk) as Hx.
    pose proof (lxor_byte_bound _ _ Hm Hk') as Hx'.
    set (x := Z.lxor (byte_of_char ch) (Z.rem iv 256)) in *.
    set (x' := Z.lxor (byte_of_char ch) (Z.rem iv' 256)) in *.
    destruct (rsa_decrypt_encrypt p q n e d key x ltac:(lia)) as [Hex Hdx].
    destruct (rsa_decrypt_encrypt p q n e d key x' ltac:(lia)) as [Hex' Hdx'].
    rewrite Hex, Hex' in Heq. cbn [bind] in Heq.
    destruct (cbc_encrypt_from_spec p q n e d key big rest (x ^ e mod n))
      as (c1 & H1 & _);
      [pose proof (Z.mod_pos_bound (x ^ e) n ltac:(lia)); lia|].
    destruct (cbc_encrypt_from_spec p q n e d key big rest (x' ^ e mod n))
      as (c2 & H2 & _);
      [pose proof (Z.mod_pos_bound (x' ^ e) n ltac:(lia)); lia|].
    rewrite H1, H2 in Heq. cbn [bind] in Heq.
    injection Heq as Hblock _.
    rewrite Hblock in Hdx. rewrite Hdx in Hdx'. injection Hdx' as Hxx.
    apply (f_equal (Z.lxor (byte_of_char ch))) in Hxx.
    unfold x, x' in Hxx.
    rewrite <- !Z.lxor_assoc, !Z.lxor_nilpotent, !Z.lxor_0_l in Hxx.
    exact Hxx.
  - intros ->. reflexivity.
Qed.

Lemma cbc_encrypt_iv_low_byte_witness :
  cbc_encrypt (String "H" "i") 65537 323 7
  = cbc_encrypt (String "H" "i") 65537 323 263
  <-> 7 mod 256 = 263 mod 256.
Proof.
  apply (cbc_encrypt_iv_low_byte 17 19 323 65537 161 7 263 "H" "i");
    [exact example_key|lia|lia|lia].
Defined.

(** X6. A wrong initialization vector reaches the first byte only: with
    a non-negative exponent and a non-zero modulus, every decrypted
    character after the first is the same whatever [iv] is given. *)
Theorem cbc_decrypt_iv_first_byte_only
  (cipher : list Z) (d n iv iv' : Z) (j : nat) :
  0 <= d -> n <> 0 ->
  char_at (S j) (cbc_decrypt cipher d n iv)
  = char_at (S j) (cbc_decrypt cipher d n iv').
Proof.
  intros Hd Hn. unfold cbc_decrypt.
  rewrite !cbc_decrypt_from_char_at by assumption. reflexivity.
Qed.

Lemma cbc_decrypt_iv_first_byte_only_witness :
  char_at 1 (cbc_decrypt [317; 50] 161 323 7)
  = char_at 1 (cbc_decrypt [317; 50] 161 323 200).
Proof.
  apply (cbc_decrypt_iv_first_byte_only [317; 50] 161 323 7 200 0); lia.
Defined.

(** X7. Textbook RSA is multiplicative: for non-negative [a], [b], [e]
    and a positive modulus, the encryption of [a * b] is the product of
    the encryptions of [a] and of [b], reduced modulo [n]. *)
Theorem rsa_encrypt_multiplicative (a b e n : Z) :
  0 <= a -> 0 <= b -> 0 <= e -> 0 < n ->
  rsa_encrypt (a * b) e n
  = (ca <- rsa_encrypt a e n ;; cb <- rsa_encrypt b e n ;;
     Ok ((ca * cb) mod n)).
Proof.
  intros Ha Hb He Hn. unfold rsa_encrypt.
  rewrite !mod_exp_nonneg by nia. cbn [bind].
  rewrite Z.pow_mul_l, <- Zmult_mod. reflexivity.
Qed.

Lemma rsa_encrypt_multiplicative_witness :
  rsa_encrypt (6 * 7) 65537 323
  = (ca <- rsa_encrypt 6 65537 323 ;; cb <- rsa_encrypt 7 65537 323 ;;
     Ok ((ca * cb) mod 323)).
Proof.
  apply (rsa_encrypt_multiplicative 6 7 65537 323); lia.
Defined.

(* ===================================================================== *)
(** * More on the primality test *)
(* ===================================================================== *)

Lemma wrap32_small (z : Z) : INT_MIN <= z <= INT_MAX -> wrap32 z = z.
Proof.
  unfold INT_MIN, INT_MAX, wrap32. intros Hz.
  rewrite Z.mod_small by lia. lia.
Qed.

Lemma strip_twos_pos (d : positive) (s : Z) : 0 < fst (strip_twos d s).
Proof.
  revert s. induction d as [d IH|d IH|]; intros s; cbn; try lia. apply IH.
Qed.

(** The halving loop splits off exactly the factors of two, as long as
    the counter [s] stays within [int]. *)
Lemma strip_twos_spec (d : positive) (s : Z) :
  0 <= s -> s + Z.log2 (Zpos d) <= INT_MAX ->
  exists d' s', strip_twos d s = (d', s') /\
    0 < d' /\ Z.odd d' = true /\
    s <= s' <= s + Z.log2 (Zpos d) /\ Zpos d = d' * 2 ^ (s' - s).
Proof.
  revert s. induction d as [d IH|d IH|]; intros s Hs Hmax.
  - exists (Zpos d~1), s. cbn [strip_twos].
    pose proof (Z.log2_nonneg (Zpos d~1)).
    rewrite Z.sub_diag. repeat split; try lia.
  - cbn [strip_twos].
    assert (Hlog : Z.log2 (Zpos d~0) = Z.succ (Z.log2 (Zpos d)))
      by (rewrite Pos2Z.inj_xO; apply Z.log2_double; lia).
    pose proof (Z.log2_nonneg (Zpos d)).
    rewrite wrap32_small by (unfold INT_MIN, INT_MAX in *; lia).
    destruct (IH (s + 1) ltac:(lia) ltac:(lia))
      as (d' & s' & Heq & Hpos & Hodd & Hrange & Hprod).
    exists d', s'. rewrite Heq. repeat split; try (assumption || lia).
    rewrite Pos2Z.inj_xO, Hprod.
    replace (s' - s) with (Z.succ (s' - (s + 1))) by lia.
    rewrite Z.pow_succ_r by lia. ring.
  - exists 1, s. cbn. rewrite Z.sub_diag. repeat split; lia.
Qed.

Lemma decompose_pred (n : Z) :
  2 <= n -> Z.log2 n <= INT_MAX ->
  exists d s, decompose (n - 1) = Ok (d, s) /\
    n - 1 = d * 2 ^ s /\ Z.odd d = true /\ 0 < d /\ 0 <= s <= INT_MAX.
Proof.
  intros Hn Hlog.
  destruct (n - 1) as [|m|m] eqn:Hm; try lia.
  assert (Z.log2 (Zpos m) <= Z.log2 n)
    by (apply Z.log2_le_mono; lia).
  destruct (strip_twos_spec m 0 ltac:(lia) ltac:(lia))
    as (d & s & Heq & Hpos & Hodd & Hrange & Hprod).
  exists d, s. cbn [decompose]. rewrite Heq.
  rewrite Z.sub_0_r in Hprod. repeat split; try (assumption || lia).
Qed.

(** X8. The decomposition loop of [miller_rabin_test] writes [n - 1] as
    [d * 2^s] with [d] odd, for every [n >= 2] whose bit length fits the
    [int] counter [s]. *)
Theorem decompose_spec (n : Z) :
  2 <= n -> Z.log2 n <= INT_MAX ->
  exists d s, decompose (n - 1) = Ok (d, s) /\
    n - 1 = d * 2 ^ s /\ Z.odd d = true /\ 0 < d /\ 0 <= s <= INT_MAX.
Proof. exact (decompose_pred n). Qed.

Lemma decompose_spec_witness :
  exists d s, decompose (917519 - 1) = Ok (d, s) /\
    917519 - 1 = d * 2 ^ s /\ Z.odd d = true /\ 0 < d /\ 0 <= s <= INT_MAX.
Proof.
  apply (decompose_spec 917519); [lia|vm_compute; discriminate].
Defined.

Lemma squaring_loop_total (n x : Z) (rounds : nat) :
  n <> 0 -> exists b, squaring_loop n x rounds = Ok b.
Proof.
  intros Hn. revert x. induction rounds as [|rounds IH]; intros x.
  - exists false. reflexivity.
  - cbn [squaring_loop]. rewrite mod_exp_rem by lia. cbn [bind].
    destruct (Z.rem (x ^ 2) n =? n - 1); [exists true; reflexivity|apply IH].
Qed.

Lemma witness_loop_total (dis : nat -> Z) (n d s : Z) (rounds i : nat) :
  0 <= d -> n <> 0 -> exists b, witness_loop dis n d s rounds i = Ok b.
Proof.
  intros Hd Hn. revert i. induction rounds as [|rounds IH]; intros i.
  - exists true. reflexivity.
  - cbn [witness_loop]. rewrite mod_exp_rem by assumption. cbn [bind].
    destruct ((Z.rem (dis i ^ d) n =? 1) || (Z.rem (dis i ^ d) n =? n - 1));
      [apply IH|].
    destruct (squaring_loop_total n (Z.rem (dis i ^ d) n)
                (Z.to_nat (wrap32 (s - 1))) Hn) as ([|] & ->); cbn [bind].
    + apply IH.
    + exists false. reflexivity.
Qed.

(** X9. [miller_rabin_test] always returns a boolean: for every [n],
    every round count and every sequence of bases it neither raises an
    exception of the big-integer library nor loops in the decomposition
    of [n - 1]. *)
Theorem miller_rabin_test_returns (dis : nat -> Z) (n k : Z) :
  exists b, miller_rabin_test dis n k = Ok b.
Proof.
  unfold miller_rabin_test.
  destruct (Z.leb_spec n 1); [exists false; reflexivity|]. cbn [orb].
  destruct ((Z.rem n 2 =? 0) && negb (n =? 2)); [exists false; reflexivity|].
  destruct (Z.eqb_spec n 2); [exists true; reflexivity|].
  destruct (Z.eqb_spec n 3); [exists true; reflexivity|]. cbn [orb].
  destruct (n - 1) as [|m|m] eqn:Hm; try lia.
  cbn [decompose bind].
  pose proof (strip_twos_pos m 0) as Hpos.
  destruct (strip_twos m 0) as [d s]. cbn [fst] in Hpos.
  apply witness_loop_total; lia.
Qed.

Section PrimesPass.

Variable n : Z.
Hypothesis n_prime : prime n.

Lemma square_root_of_one (y : Z) :
  (y * y) mod n = 1 -> y mod n = 1 \/ y mod n = n - 1.
Proof using n_prime.
  intros Hy. pose proof (prime_ge_2 n n_prime) as Hn.
  assert (Hdiv : (n | (y - 1) * (y + 1))).
  { replace ((y - 1) * (y + 1)) with (y * y - 1) by ring.
    apply Zmod_divide_minus; [lia|assumption]. }
  apply prime_mult in Hdiv; [|assumption].
  destruct Hdiv as [Hdiv|Hdiv].
  - left. apply Zdivide_mod_minus; [lia|assumption].
  - right. apply Zdivide_mod_minus; [lia|].
    replace (y - (n - 1)) with (y + 1 + (-1) * n) by ring.
    apply Z.divide_add_r; [assumption|]. exists (-1). ring.
Qed.

Lemma repeated_squares_reach (x : Z) (r : nat) :
  x ^ (2 ^ Z.of_nat r) mod n = 1 ->
  x mod n = 1 \/
  exists i, 0 <= i < Z.of_nat r /\ x ^ (2 ^ i) mod n = n - 1.
Proof using n_prime.
  induction r as [|r IH]; intros Hx.
  - left. change (2 ^ Z.of_nat 0) with 1 in Hx.
    rewrite Z.pow_1_r in Hx. exact Hx.
  - rewrite Nat2Z.inj_succ, Z.pow_succ_r, Z.mul_comm, Z.pow_mul_r in Hx
      by (try apply Z.pow_nonneg; lia).
    rewrite Z.pow_2_r in Hx.
    apply square_root_of_one in Hx. destruct Hx as [Hx|Hx].
    + destruct (IH Hx) as [H1|(i & Hi & Hreach)]; [left; assumption|].
      right. exists i. split; [lia|assumption].
    + right. exists (Z.of_nat r). split; [lia|assumption].
Qed.

Lemma squaring_loop_finds (x : Z) (rounds : nat) (i : Z) :
  0 <= x -> 1 <= i <= Z.of_nat rounds ->
  x ^ (2 ^ i) mod n = n - 1 ->
  squaring_loop n x rounds = Ok true.
Proof using n_prime.
  pose proof (prime_ge_2 n n_prime) as Hn.
  revert x i. induction rounds as [|rounds IH]; intros x i Hx Hi Hreach;
    [lia|].
  cbn [squaring_loop]. rewrite mod_exp_nonneg by lia. cbn [bind].
  destruct (Z.eqb_spec (x ^ 2 mod n) (n - 1)) as [|Hne]; [reflexivity|].
  assert (Hi2 : i <> 1) by (intros ->; apply Hne; exact Hreach).
  apply (IH (x ^ 2 mod n) (i - 1)).
  - apply Z.mod_pos_bound. lia.
  - lia.
  - rewrite Z.mod_pow_l, <- Z.pow_mul_r by (try apply Z.pow_nonneg; lia).
    replace (2 * 2 ^ (i - 1)) with (2 ^ i); [assumption|].
    replace i with (Z.succ (i - 1)) at 1 by lia.
    apply Z.pow_succ_r. lia.
Qed.

Variables d s : Z.
Hypothesis d_pos : 0 < d.
Hypothesis s_range : 0 <= s <= INT_MAX.
Hypothesis split : n - 1 = d * 2 ^ s.

(** One round of the test lets a prime through, whatever the base. *)
Lemma round_passes (a : Z) :
  1 <= a < n ->
  exists x, mod_exp a d n = Ok x /\
    (x = 1 \/ x = n - 1 \/
     squaring_loop n x (Z.to_nat (wrap32 (s - 1))) = Ok true).
Proof using n_prime d_pos s_range split.
  intros Ha. pose proof (prime_ge_2 n n_prime) as Hn.
  exists (a ^ d mod n). split; [apply mod_exp_nonneg; lia|].
  pose proof (Z.mod_pos_bound (a ^ d) n ltac:(lia)) as Hx.
  assert (Hone : (a ^ d mod n) ^ (2 ^ Z.of_nat (Z.to_nat s)) mod n = 1).
  { rewrite Z2Nat.id by lia.
    rewrite Z.mod_pow_l, <- Z.pow_mul_r, <- split
      by (try apply Z.pow_nonneg; lia).
    apply fermat_little; [assumption|].
    apply prime_no_small_multiple; [assumption|lia]. }
  apply repeated_squares_reach in Hone.
  rewrite Z.mod_mod, Z2Nat.id in Hone by lia.
  destruct Hone as [H1|(i & Hi & Hreach)]; [left; assumption|].
  right. destruct (Z.eq_dec i 0) as [->|Hi0].
  - left. change (2 ^ 0) with 1 in Hreach.
    rewrite Z.pow_1_r, Z.mod_mod in Hreach by lia. exact Hreach.
  - right. apply (squaring_loop_finds _ _ i); [lia| |assumption].
    rewrite wrap32_small by (unfold INT_MIN, INT_MAX in *; lia). lia.
Qed.

Lemma witness_loop_prime (dis : nat -> Z) (rounds i : nat) :
  (forall j, 1 <= dis j < n) ->
  witness_loop dis n d s rounds i = Ok true.
Proof using n_prime d_pos s_range split.
  intros Hdis. revert i. induction rounds as [|rounds IH]; intros i;
    [reflexivity|].
  cbn [witness_loop].
  destruct (round_passes (dis i) (Hdis i)) as (x & -> & Hx). cbn [bind].
  destruct Hx as [->|[->|Hloop]].
  - rewrite Z.eqb_refl. apply IH.
  - rewrite Z.eqb_refl, orb_true_r. apply IH.
  - destruct ((x =? 1) || (x =? n - 1)); [apply IH|].
    rewrite Hloop. cbn [bind]. apply IH.
Qed.

End PrimesPass.

(** X10. The test has no false negatives: every prime [n] (of a bit
    length that fits the [int] counter) is declared probably prime,
    for every round count and all bases between [1] and [n - 1]. *)
Theorem miller_rabin_accepts_primes (dis : nat -> Z) (n k : Z) :
  prime n -> Z.log2 n <= INT_MAX ->
  (forall j, 1 <= dis j < n) ->
  miller_rabin_test dis n k = Ok true.
Proof.
  intros Hp Hlog Hdis. pose proof (prime_ge_2 n Hp) as Hn.
  unfold miller_rabin_test.
  destruct (Z.leb_spec n 1); [lia|]. cbn [orb].
  destruct (Z.eqb_spec n 2) as [->|Hn2]; [reflexivity|].
  destruct (Z.eqb_spec n 3) as [->|Hn3]; [reflexivity|].
  assert (Hodd : Z.rem n 2 <> 0).
  { rewrite Z.rem_mod_nonneg by lia. intros H0.
    apply Z.mod_divide in H0; [|lia].
    apply prime_div_prime in H0; [lia|apply prime_2|assumption]. }
  destruct (Z.eqb_spec (Z.rem n 2) 0); [contradiction|]. cbn [andb orb].
  destruct (decompose_pred n ltac:(lia) Hlog)
    as (d & s & -> & Hsplit & _ & Hd & Hs).
  cbn [bind]. apply witness_loop_prime; assumption.
Qed.

Lemma miller_rabin_accepts_primes_witness :
  miller_rabin_test (fun _ => 2) 917519 10 = Ok true.
Proof.
  apply (miller_rabin_accepts_primes (fun _ => 2) 917519 10).
  - apply primeb_correct. vm_compute. reflexivity.
  - vm_compute. discriminate.
  - intros j. lia.
Defined.

(* ===================================================================== *)
(** * More on the modular inverse and on key generation *)
(* ===================================================================== *)

(** The two outcomes of [mod_inverse] on a non-negative [e] and a
    modulus above 1. *)
Lemma mod_inverse_cases (e phi : Z) :
  0 <= e -> 1 < phi ->
  (Z.gcd e phi = 1 /\ 0 < mod_inverse e phi < phi /\
   (e * mod_inverse e phi) mod phi = 1) \/
  (Z.gcd e phi <> 1 /\ mod_inverse e phi = 0).
Proof.
  intros He Hphi.
  pose proof (mod_inverse_loop_spec e phi Hphi 0 1 phi e
                (euclid_invariant_init e phi He Hphi)) as (Hg & Hdiv & Hb).
  unfold mod_inverse.
  destruct (mod_inverse_loop 0 1 phi e) as [t r]. cbn [fst snd] in *.
  rewrite Z.gcd_comm in Hg.
  destruct (Z.eq_dec (Z.gcd e phi) 1) as [Hcop|Hncop]; [left|right].
  - split; [assumption|]. rewrite Hcop in Hg. subst r.
    destruct (Z.ltb_spec 1 1); [lia|].
    destruct Hdiv as [u Hu].
    assert (Hne : forall m, t <> m * phi).
    { intros m ->.
      assert (Hone : (phi | 1)) by (exists (m * e - u); lia).
      apply Z.divide_1_r_nonneg in Hone; lia. }
    pose proof (Hne 0). pose proof (Hne 1). pose proof (Hne (-1)).
    destruct (Z.ltb_spec t 0).
    + split; [lia|].
      replace (e * (t + phi)) with (1 + (u + e) * phi) by lia.
      rewrite Z_mod_plus_full. apply Z.mod_small. lia.
    + split; [lia|].
      replace (e * t) with (1 + u * phi) by lia.
      rewrite Z_mod_plus_full. apply Z.mod_small. lia.
  - split; [assumption|].
    assert (0 <= r) by (rewrite <- Hg; apply Z.gcd_nonneg).
    assert (r <> 0).
    { intros ->. apply Z.gcd_eq_0_r in Hg. lia. }
    destruct (Z.ltb_spec 1 r); [reflexivity|]. lia.
Qed.

Lemma prime_65537 : prime 65537.
Proof. apply primeb_correct. vm_compute. reflexivity. Qed.

(** X11. With the public exponent 65537 the private exponent comes out
    as the sentinel [0] exactly when [65537] divides the modulus [phi]
    (above 1) that [mod_inverse] is given. *)
Theorem mod_inverse_65537_zero (phi : Z) :
  1 < phi -> (mod_inverse 65537 phi = 0 <-> (65537 | phi)).
Proof.
  intros Hphi.
  destruct (mod_inverse_cases 65537 phi ltac:(lia) Hphi)
    as [(Hg & Hd & _)|(Hg & Hd)].
  - split; [lia|]. intros Hdiv.
    apply Z.divide_gcd_iff in Hdiv; lia.
  - split; [|intros _; assumption]. intros _.
    destruct (Zdivide_dec 65537 phi) as [|Hn]; [assumption|exfalso].
    apply Hg. apply Zgcd_1_rel_prime.
    apply prime_rel_prime; [exact prime_65537|assumption].
Qed.

Lemma mod_inverse_65537_zero_witness :
  mod_inverse 65537 ((917519 - 1) * (524309 - 1)) = 0
  <-> (65537 | (917519 - 1) * (524309 - 1)).
Proof.
  apply (mod_inverse_65537_zero ((917519 - 1) * (524309 - 1))). lia.
Defined.

(** X12. Inverting twice gives the residue back: for a non-negative [e]
    coprime to [phi > 1], [mod_inverse (mod_inverse e phi) phi] is
    [e mod phi]. *)
Theorem mod_inverse_involutive (e phi : Z) :
  0 <= e -> 1 < phi -> Z.gcd e phi = 1 ->
  mod_inverse (mod_inverse e phi) phi = e mod phi.
Proof.
  intros He Hphi Hcop.
  destruct (mod_inverse_cases e phi He Hphi)
    as [(_ & Hd & Hed)|(Hg & _)]; [|contradiction].
  set (d := mod_inverse e phi) in *.
  pose proof (Z.mod_pos_bound e phi ltac:(lia)) as Hem.
  destruct (mod_inverse_cases d phi ltac:(lia) Hphi)
    as [(_ & Hd' & Hdd')|(Hg & _)].
  - apply (inverse_mod_unique d phi); try lia.
    rewrite Zmult_mod_idemp_r, Z.mul_comm. exact Hed.
  - exfalso. apply Hg.
    pose proof (Z.gcd_divide_l d phi) as [u Hu].
    pose proof (Z.gcd_divide_r d phi) as [v Hv].
    pose proof (Z.gcd_nonneg d phi) as Hnn.
    pose proof (Z.div_mod (e * d) phi ltac:(lia)) as Hdm.
    rewrite Hed in Hdm.
    assert (Hone : (Z.gcd d phi | 1)).
    { exists (e * u - v * (e * d / phi)).
      set (g := Z.gcd d phi) in *. set (k := e * d / phi) in *.
      rewrite Z.mul_sub_distr_r.
      replace (e * u * g) with (e * d) by (rewrite Hu at 1; ring).
      replace (v * k * g) with (phi * k) by (rewrite Hv at 1; ring).
      lia. }
    apply Z.divide_1_r_nonneg in Hone; assumption.
Qed.

Lemma mod_inverse_involutive_witness :
  mod_inverse (mod_inverse 65537 288) 288 = 65537 mod 288.
Proof.
  apply (mod_inverse_involutive 65537 288); [lia|lia|reflexivity].
Defined.

Section KeyGeneration.

Variable rnd : entropy.

(** The loop [while (q == p)] ends with a [q] other than [p] that is the
    first draw or a later value of [generate_prime]. *)
Lemma resample_while_equal_spec (Q : Z -> Prop) (half p : Z) :
  (forall fuel g v g',
      generate_prime fuel rnd half g = Ok (v, g') -> Q v) ->
  forall fuel q0 g q g',
    Q q0 ->
    resample_while_equal fuel rnd half p q0 g = Ok (q, g') ->
    q <> p /\ Q q.
Proof.
  intros Hgen. induction fuel as [|fuel IH]; intros q0 g q g' Hq0 H.
  - cbn [resample_while_equal] in H.
    destruct (Z.eqb_spec q0 p); [discriminate|].
    injection H as <- <-. split; assumption.
  - cbn [resample_while_equal] in H.
    destruct (Z.eqb_spec q0 p).
    + destruct (generate_prime (S fuel) rnd half g) as [[q1 g1]| |] eqn:Hq1;
        try discriminate.
      cbn [bind] in H. apply (IH q1 g1 q g'); [|assumption].
      apply (Hgen _ _ _ _ Hq1).
    + injection H as <- <-. split; assumption.
Qed.

Lemma generate_prime_value (fuel : nat) (half : Z) (g g' : nat) (v : Z) :
  1 < half ->
  generate_prime fuel rnd half g = Ok (v, g') ->
  (2 ^ (half - 1) <= v < 2 ^ half /\ Z.odd v = true) /\
  exists k, miller_rabin_test (dis_sample rnd k) v 10 = Ok true.
Proof.
  intros Hhalf H.
  apply generate_prime_candidate in H as (k & Hk & Hpass).
  destruct (random_number_spec (mt_word rnd k) half Hhalf)
    as (v' & Hv' & Hrange).
  rewrite Hk in Hv'. injection Hv' as <-.
  split; [exact Hrange|exists k; exact Hpass].
Qed.

Lemma odd_at_least_three (v : Z) : 2 <= v -> Z.odd v = true -> 3 <= v.
Proof.
  intros Hv Hodd. destruct (Z.eq_dec v 2) as [->|]; [discriminate|lia].
Qed.

(** What a returned key always is. *)
Lemma generate_rsa_keys_factors (fuel : nat) (bits n e d : Z) :
  4 <= bits ->
  generate_rsa_keys fuel rnd bits = Ok (n, e, d) ->
  exists p q,
    n = p * q /\ p <> q /\ e = 65537 /\
    d = mod_inverse 65537 ((p - 1) * (q - 1)) /\
    (2 ^ (Z.quot bits 2 - 1) <= p < 2 ^ Z.quot bits 2 /\ Z.odd p = true) /\
    (2 ^ (Z.quot bits 2 - 1) <= q < 2 ^ Z.quot bits 2 /\ Z.odd q = true) /\
    (exists k, miller_rabin_test (dis_sample rnd k) p 10 = Ok true) /\
    (exists k, miller_rabin_test (dis_sample rnd k) q 10 = Ok true).
Proof.
  intros Hbits H. unfold generate_rsa_keys in H.
  assert (Hhalf : 1 < Z.quot bits 2).
  { pose proof (Z.quot_le_mono 4 bits 2 ltac:(lia) ltac:(lia)) as Hq.
    change (Z.quot 4 2) with 2 in Hq. lia. }
  set (half := Z.quot bits 2) in *.
  destruct (generate_prime fuel rnd half 0) as [[p g1]| |] eqn:Hp;
    try discriminate; cbn [bind] in H.
  destruct (generate_prime fuel rnd half g1) as [[q0 g2]| |] eqn:Hq0;
    try discriminate; cbn [bind] in H.
  destruct (resample_while_equal fuel rnd half p q0 g2)
    as [[q g3]| |] eqn:Hq; try discriminate; cbn [bind] in H.
  injection H as <- <- <-.
  apply (generate_prime_value _ _ _ _ _ Hhalf) in Hp as [Hpr Hpp].
  apply (generate_prime_value _ _ _ _ _ Hhalf) in Hq0.
  apply (resample_while_equal_spec
           (fun v => (2 ^ (half - 1) <= v < 2 ^ half /\ Z.odd v = true) /\
                     exists k, miller_rabin_test (dis_sample rnd k) v 10
                               = Ok true)) in Hq;
    [|intros f g v g' Hv; exact (generate_prime_value _ _ _ _ _ Hhalf Hv)
     |exact Hq0].
  destruct Hq as [Hne [Hqr Hqp]].
  exists p, q. repeat split; try tauto. congruence.
Qed.

End KeyGeneration.

(** X13. Every key [generate_rsa_keys] returns for [bits >= 4] has
    [e = 65537] and a modulus [n = p * q] of two different odd factors of
    exactly [bits / 2] bits that passed the primality test, so [n] has
    [2 (bits / 2) - 1] or [2 (bits / 2)] bits; [d] is either the inverse
    of [e] modulo [(p-1)(q-1)], below that modulus, or the sentinel [0];
    and when the factors are prime and [d] is not [0] the key is a valid
    key pair. *)
Theorem generate_rsa_keys_shape
  (fuel : nat) (rnd : entropy) (bits n e d : Z) :
  4 <= bits ->
  generate_rsa_keys fuel rnd bits = Ok (n, e, d) ->
  exists p q,
    n = p * q /\ p <> q /\ e = 65537 /\
    (2 ^ (Z.quot bits 2 - 1) <= p < 2 ^ Z.quot bits 2 /\ Z.odd p = true) /\
    (2 ^ (Z.quot bits 2 - 1) <= q < 2 ^ Z.quot bits 2 /\ Z.odd q = true) /\
    (exists k, miller_rabin_test (dis_sample rnd k) p 10 = Ok true) /\
    (exists k, miller_rabin_test (dis_sample rnd k) q 10 = Ok true) /\
    2 ^ (2 * Z.quot bits 2 - 2) <= n < 2 ^ (2 * Z.quot bits 2) /\
    (d = 0 \/
     (0 < d < (p - 1) * (q - 1) /\ (e * d) mod ((p - 1) * (q - 1)) = 1)) /\
    (prime p -> prime q -> d <> 0 -> valid_key p q n e d).
Proof.
  intros Hbits H.
  destruct (generate_rsa_keys_factors rnd fuel bits n e d Hbits H)
    as (p & q & Hn & Hne & He & Hd & Hp & Hq & Hpp & Hqp).
  assert (Hhalf : 1 < Z.quot bits 2).
  { pose proof (Z.quot_le_mono 4 bits 2 ltac:(lia) ltac:(lia)) as Hq'.
    change (Z.quot 4 2) with 2 in Hq'. lia. }
  set (half := Z.quot bits 2) in *.
  assert (Hlow : 2 <= 2 ^ (half - 1)).
  { change 2 with (2 ^ 1) at 1. apply Z.pow_le_mono_r; lia. }
  pose proof (odd_at_least_three p ltac:(lia) (proj2 Hp)) as Hp3.
  pose proof (odd_at_least_three q ltac:(lia) (proj2 Hq)) as Hq3.
  assert (Hphi : 1 < (p - 1) * (q - 1)) by nia.
  assert (Hcases :
            d = 0 \/
            (0 < d < (p - 1) * (q - 1) /\
             (e * d) mod ((p - 1) * (q - 1)) = 1)).
  { destruct (mod_inverse_cases 65537 ((p - 1) * (q - 1)) ltac:(lia) Hphi)
      as [(_ & Hr & Hm)|(_ & H0)]; rewrite <- Hd in *; subst e; tauto. }
  assert (Hnlow : 2 ^ (2 * half - 2) <= n).
  { replace (2 * half - 2) with ((half - 1) + (half - 1)) by lia.
    rewrite Z.pow_add_r by lia. subst n. apply Z.mul_le_mono_nonneg; lia. }
  assert (Hnhigh : n < 2 ^ (2 * half)).
  { replace (2 * half) with (half + half) by lia.
    rewrite Z.pow_add_r by lia. subst n. apply Z.mul_lt_mono_nonneg; lia. }
  exists p, q.
  split; [assumption|]. split; [assumption|]. split; [assumption|].
  split; [assumption|]. split; [assumption|]. split; [assumption|].
  split; [assumption|]. split; [split; assumption|].
  split; [assumption|].
  intros Hpprime Hqprime Hd0.
  destruct Hcases as [->|[Hr Hm]]; [contradiction|].
  constructor; try assumption; lia.
Qed.

Lemma generate_rsa_keys_shape_witness :
  exists p q,
    524309 * 524341 = p * q /\ p <> q /\ 65537 = 65537 /\
    (2 ^ (Z.quot 40 2 - 1) <= p < 2 ^ Z.quot 40 2 /\ Z.odd p = true) /\
    (2 ^ (Z.quot 40 2 - 1) <= q < 2 ^ Z.quot 40 2 /\ Z.odd q = true) /\
    (exists k,
        miller_rabin_test (dis_sample example_entropy k) p 10 = Ok true) /\
    (exists k,
        miller_rabin_test (dis_sample example_entropy k) q 10 = Ok true) /\
    2 ^ (2 * Z.quot 40 2 - 2) <= 524309 * 524341 < 2 ^ (2 * Z.quot 40 2) /\
    (33843775553 = 0 \/
     (0 < 33843775553 < (p - 1) * (q - 1) /\
      (65537 * 33843775553) mod ((p - 1) * (q - 1)) = 1)) /\
    (prime p -> prime q -> 33843775553 <> 0 ->
     valid_key p q (524309 * 524341) 65537 33843775553).
Proof.
  apply (generate_rsa_keys_shape 1 example_entropy 40
           (524309 * 524341) 65537 33843775553); [lia|vm_compute; reflexivity].
Defined.

Section TinyKeys.

Variable rnd : entropy.

Lemma land_lor_forced (r width v : Z) :
  0 < width -> v = 2 ^ width - 1 ->
  Z.lor (Z.land r v) v = v.
Proof.
  intros Hw ->. replace (2 ^ width - 1) with (Z.ones width)
    by (rewrite Z.ones_equiv; lia).
  apply Z.bits_inj'. intros k Hk.
  rewrite Z.lor_spec, Z.land_spec.
  destruct (Z.testbit (Z.ones width) k); [apply orb_true_r|].
  rewrite andb_false_r. reflexivity.
Qed.

(** The only one-bit candidate is [1]. *)
Lemma random_number_one (gen : nat -> Z) : random_number gen 1 = Ok 1.
Proof.
  unfold random_number, Boost.shl.
  change (1 <? 0) with false. change (1 - 1 <? 0) with false. cbn [bind].
  change (Z.shiftl 1 1 - 1) with 1.
  change (Z.lor (Z.shiftl 1 (1 - 1)) 1) with 1.
  rewrite (land_lor_forced _ 1 1); [reflexivity|lia|reflexivity].
Qed.

(** The only two-bit candidate is [3]. *)
Lemma random_number_two (gen : nat -> Z) : random_number gen 2 = Ok 3.
Proof.
  unfold random_number, Boost.shl.
  change (2 <? 0) with false. change (2 - 1 <? 0) with false. cbn [bind].
  change (Z.shiftl 1 2 - 1) with 3.
  change (Z.lor (Z.shiftl 1 (2 - 1)) 1) with 3.
  rewrite (land_lor_forced _ 2 3); [reflexivity|lia|reflexivity].
Qed.

Lemma generate_prime_one (fuel g : nat) :
  generate_prime fuel rnd 1 g = Timeout.
Proof.
  revert g. induction fuel as [|fuel IH]; intros g; [reflexivity|].
  cbn [generate_prime]. rewrite random_number_one. cbn [bind].
  change (miller_rabin_test (dis_sample rnd g) 1 10) with (@Ok bool false).
  cbn [bind]. apply IH.
Qed.

Lemma generate_prime_two (fuel g : nat) :
  generate_prime (S fuel) rnd 2 g = Ok (3, S g).
Proof.
  cbn [generate_prime]. rewrite random_number_two. reflexivity.
Qed.

Lemma resample_three (fuel g : nat) :
  resample_while_equal fuel rnd 2 3 3 g = Timeout.
Proof.
  revert g. induction fuel as [|fuel IH]; intros g; [reflexivity|].
  cbn [resample_while_equal Z.eqb Pos.eqb].
  rewrite generate_prime_two. cbn [bind]. apply IH.
Qed.

End TinyKeys.

(** X14. For a modulus of 2 to 5 bits [generate_rsa_keys] never returns,
    however many candidates are drawn: a one-bit candidate is always [1]
    and never passes the test, and the two-bit candidate is always [3],
    so the loop that asks for [q != p] never ends. *)
Theorem generate_rsa_keys_tiny_diverges
  (fuel : nat) (rnd : entropy) (bits : Z) :
  2 <= bits <= 5 -> generate_rsa_keys fuel rnd bits = Timeout.
Proof.
  intros Hbits. unfold generate_rsa_keys.
  assert (Hcases : Z.quot bits 2 = 1 \/ Z.quot bits 2 = 2).
  { assert (H : bits = 2 \/ bits = 3 \/ bits = 4 \/ bits = 5) by lia.
    destruct H as [H|[H|[H|H]]]; subst bits; cbn; tauto. }
  destruct Hcases as [Hq|Hq]; rewrite Hq.
  - rewrite generate_prime_one. reflexivity.
  - destruct fuel as [|fuel]; [reflexivity|].
    rewrite generate_prime_two. cbn [bind]. cbv beta iota.
    rewrite generate_prime_two. cbn [bind]. cbv beta iota.
    rewrite resample_three. reflexivity.
Qed.

Lemma generate_rsa_keys_tiny_diverges_witness :
  generate_rsa_keys 1000 example_entropy 4 = Timeout.
Proof.
  apply (generate_rsa_keys_tiny_diverges 1000 example_entropy 4). lia.
Defined.

(* ===================================================================== *)
(** * More on the server's handler *)
(* ===================================================================== *)

Section Handler.

Local Open Scope string_scope.

Lemma c_str_app_nul (a b : string) :
  Server.c_str (a ++ String "000" b) = Server.c_str a.
Proof.
  induction a as [|ch a IH]; [reflexivity|].
  cbn [append Server.c_str]. rewrite IH. reflexivity.
Qed.

Lemma parse_digits_outcomes (radix acc : Z) (s : string) :
  (exists v, Boost.parse_digits radix acc s = Ok v) \/
  Boost.parse_digits radix acc s = Throw RuntimeError.
Proof.
  revert acc. induction s as [|ch s IH]; intros acc; cbn [Boost.parse_digits].
  - left. eexists. reflexivity.
  - destruct (Boost.digit_value radix ch); [apply IH|right; reflexivity].
Qed.

Lemma cpp_int_of_string_outcomes (s : string) :
  (exists v, Boost.cpp_int_of_string s = Ok v) \/
  Boost.cpp_int_of_string s = Throw RuntimeError.
Proof.
  unfold Boost.cpp_int_of_string.
  destruct (match s with
            | String "-"%char r => (true, r)
            | _ => (false, s)
            end) as [isneg s1].
  destruct (match s1 with
            | String "0"%char (String "x"%char r) => (16, r)
            | String "0"%char (String "X"%char r) => (16, r)
            | String "0"%char r => (8, r)
            | _ => (10, s1)
            end) as [radix s2].
  destruct (parse_digits_outcomes radix 0 s2) as [(v & ->)| ->].
  - left. eexists. reflexivity.
  - right. reflexivity.
Qed.

Lemma parse_blocks_outcomes (blocks : list string) :
  (exists cipher, Server.parse_blocks blocks = Ok cipher) \/
  Server.parse_blocks blocks = Throw RuntimeError.
Proof.
  induction blocks as [|block rest IH]; cbn [Server.parse_blocks].
  - left. eexists. reflexivity.
  - destruct block as [|ch t]; [exact IH|].
    destruct (cpp_int_of_string_outcomes (String ch t)) as [(v & ->)| ->];
      cbn [bind]; [|right; reflexivity].
    destruct IH as [(cipher & ->)| ->]; cbn [bind].
    + left. eexists. reflexivity.
    + right. reflexivity.
Qed.

End Handler.

(** X16. The server reads its buffer as a C string: whatever follows a
    NUL byte of the payload is ignored by the handler. *)
Theorem handle_message_stops_at_nul (d n : Z) (a b : string) :
  Server.handle_message d n (a ++ String "000" b)
  = Server.handle_message d n a.
Proof.
  unfold Server.handle_message. rewrite c_str_app_nul. reflexivity.
Qed.

(** X17. With a non-negative private exponent and a non-zero modulus the
    handler has three outcomes only: the payload is dropped for its
    missing delimiter, or an unparsable integer raises
    std::runtime_error, or an acknowledgement ["Message received: "],
    text, CR LF is sent; no other exception is raised. *)
Theorem handle_message_outcomes (d n : Z) (buffer : string) :
  0 <= d -> n <> 0 ->
  Server.handle_message d n buffer
  = Ok (Server.Dropped "Invalid data format.") \/
  Server.handle_message d n buffer = Throw RuntimeError \/
  exists text,
    Server.handle_message d n buffer
    = Ok (Server.Answered ("Message received: " ++ text ++ Server.crlf)%string).
Proof.
  intros Hd Hn. unfold Server.handle_message.
  destruct (index 0 "|" (Server.c_str buffer)) as [pos|]; [|left; reflexivity].
  right.
  destruct (cpp_int_of_string_outcomes
              (substring 0 pos (Server.c_str buffer))) as [(v & ->)| ->];
    cbn [bind]; [|left; reflexivity].
  assert (Hiv : rsa_decrypt v d n = Ok (Z.rem (v ^ d) n))
    by (apply mod_exp_rem; assumption).
  rewrite Hiv. cbn [bind].
  destruct (parse_blocks_outcomes
              (Server.getline_all ","
                 (substring (S pos)
                    (String.length (Server.c_str buffer) - S pos)
                    (Server.c_str buffer)))) as [(cipher & ->)| ->];
    cbn [bind]; [|left; reflexivity].
  destruct (cbc_decrypt_from_total d n Hd Hn cipher (Z.rem (v ^ d) n))
    as (text & Htext & _).
  unfold cbc_decrypt. rewrite Htext. cbn [bind].
  right. exists text. reflexivity.
Qed.

Lemma handle_message_outcomes_witness :
  Server.handle_message 161 323 "296|317,50"
  = Ok (Server.Dropped "Invalid data format.") \/
  Server.handle_message 161 323 "296|317,50" = Throw RuntimeError \/
  exists text,
    Server.handle_message 161 323 "296|317,50"
    = Ok (Server.Answered ("Message received: " ++ text ++ Server.crlf)%string).
Proof.
  apply (handle_message_outcomes 161 323 "296|317,50"); lia.
Defined.

(* ===================================================================== *)
(** * Bases that share a factor with the candidate *)
(* ===================================================================== *)

Section SharedFactor.

Variables n g : Z.
Hypothesis n_big : 3 < n.
Hypothesis g_big : 1 < g.
Hypothesis g_divides_n : (g | n).

Lemma shared_factor_not_unit (x : Z) :
  (g | x) -> x <> 1 /\ x <> n - 1.
Proof using n_big g_big g_divides_n.
  intros Hx. split; intros ->.
  - apply Z.divide_1_r_nonneg in Hx; lia.
  - assert (Hone : (g | 1)).
    { replace 1 with (n - (n - 1)) by ring.
      apply Z.divide_sub_r; assumption. }
    apply Z.divide_1_r_nonneg in Hone; lia.
Qed.

Lemma shared_factor_mod (x : Z) : (g | x) -> (g | x mod n).
Proof using n_big g_divides_n.
  intros Hx. rewrite Z.mod_eq by lia.
  apply Z.divide_sub_r; [assumption|].
  apply Z.divide_mul_l. assumption.
Qed.

Lemma squaring_loop_shared_factor (x : Z) (rounds : nat) :
  0 <= x -> (g | x) -> squaring_loop n x rounds = Ok false.
Proof using n_big g_big g_divides_n.
  revert x. induction rounds as [|rounds IH]; intros x Hx Hg;
    [reflexivity|].
  cbn [squaring_loop]. rewrite mod_exp_nonneg by lia. cbn [bind].
  assert (Hg' : (g | x ^ 2 mod n)).
  { apply shared_factor_mod. rewrite Z.pow_2_r.
    apply Z.divide_mul_l. assumption. }
  destruct (shared_factor_not_unit _ Hg') as [_ Hne].
  destruct (Z.eqb_spec (x ^ 2 mod n) (n - 1)); [contradiction|].
  apply IH; [apply Z.mod_pos_bound; lia|assumption].
Qed.

Lemma witness_loop_shared_factor
  (dis : nat -> Z) (d s : Z) (rounds i : nat) :
  0 < d -> 0 <= dis i -> (g | dis i) ->
  witness_loop dis n d s (S rounds) i = Ok false.
Proof using n_big g_big g_divides_n.
  intros Hd Ha Hg. cbn [witness_loop].
  rewrite mod_exp_nonneg by lia. cbn [bind].
  assert (Hg' : (g | dis i ^ d mod n)).
  { apply shared_factor_mod.
    replace d with (Z.succ (d - 1)) by lia.
    rewrite Z.pow_succ_r by lia. apply Z.divide_mul_l. assumption. }
  destruct (shared_factor_not_unit _ Hg') as [H1 H2].
  destruct (Z.eqb_spec (dis i ^ d mod n) 1); [contradiction|].
  destruct (Z.eqb_spec (dis i ^ d mod n) (n - 1)); [contradiction|].
  cbn [orb].
  rewrite squaring_loop_shared_factor;
    [reflexivity|apply Z.mod_pos_bound; lia|assumption].
Qed.

End SharedFactor.

(** X18. A base that shares a factor with [n] exposes it: for [n > 3],
    at least one round, and a first base in [2, n-2] that is not coprime
    to [n], [miller_rabin_test] returns [false]. *)
Theorem miller_rabin_rejects_shared_factor (dis : nat -> Z) (n k : Z) :
  3 < n -> 0 < k -> 2 <= dis 0%nat <= n - 2 ->
  Z.gcd (dis 0%nat) n <> 1 ->
  miller_rabin_test dis n k = Ok false.
Proof.
  intros Hn Hk Ha Hgcd. unfold miller_rabin_test.
  destruct (Z.leb_spec n 1); [lia|]. cbn [orb].
  destruct (Z.eqb_spec n 2); [lia|]. cbn [negb andb].
  rewrite andb_true_r.
  destruct (Z.rem n 2 =? 0); [reflexivity|].
  destruct (Z.eqb_spec n 3); [lia|]. cbn [orb].
  destruct (n - 1) as [|m|m] eqn:Hm; try lia.
  cbn [decompose bind].
  pose proof (strip_twos_pos m 0) as Hpos.
  destruct (strip_twos m 0) as [d s]. cbn [fst] in Hpos.
  destruct (Z.to_nat k) as [|rounds] eqn:Hrounds; [lia|].
  set (g := Z.gcd (dis 0%nat) n) in *.
  pose proof (Z.gcd_nonneg (dis 0%nat) n) as Hg0.
  assert (g <> 0) by (unfold g; intros H0; apply Z.gcd_eq_0_r in H0; lia).
  apply (witness_loop_shared_factor n g); try lia.
  - apply Z.gcd_divide_r.
  - apply Z.gcd_divide_l.
Qed.

Lemma miller_rabin_rejects_shared_factor_witness :
  miller_rabin_test (fun _ => 3) 9 10 = Ok false.
Proof.
  apply (miller_rabin_rejects_shared_factor (fun _ => 3) 9 10);
    [lia|lia|lia|vm_compute; discriminate].
Defined.

(* ===================================================================== *)
(** * The prime search *)
(* ===================================================================== *)

(** The test of a candidate ends with a boolean. *)
Lemma miller_rabin_test_boolean (dis : nat -> Z) (n k : Z) :
  miller_rabin_test dis n k = Ok true \/ miller_rabin_test dis n k = Ok false.
Proof.
  assert (Hbool : forall r : result bool,
             (exists b, r = Ok b) -> r = Ok true \/ r = Ok false).
  { intros r ([|] & ->); [left|right]; reflexivity. }
  apply Hbool. unfold miller_rabin_test.
  destruct (Z.leb_spec n 1); [exists false; reflexivity|]. cbn [orb].
  destruct ((Z.rem n 2 =? 0) && negb (n =? 2)); [exists false; reflexivity|].
  destruct (Z.eqb_spec n 2); [exists true; reflexivity|].
  destruct (Z.eqb_spec n 3); [exists true; reflexivity|]. cbn [orb].
  destruct (n - 1) as [|m|m] eqn:Hm; try lia.
  cbn [decompose bind].
  pose proof (strip_twos_pos m 0) as Hpos.
  destruct (strip_twos m 0) as [d s]. cbn [fst] in Hpos.
  apply witness_loop_total; lia.
Qed.

(** When the candidate number [g + k] passes the test, [generate_prime]
    started at candidate [g] returns once it is allowed more than [k]
    candidates, and what it returns has exactly [bits] bits and is odd. *)
Lemma generate_prime_returns (rnd : entropy) (bits : Z) (k : nat) :
  1 < bits ->
  forall (g fuel : nat),
  (exists c, random_number (mt_word rnd (g + k)) bits = Ok c /\
             miller_rabin_test (dis_sample rnd (g + k)) c 10 = Ok true) ->
  (k < fuel)%nat ->
  exists v g', generate_prime fuel rnd bits g = Ok (v, g') /\
               2 ^ (bits - 1) <= v < 2 ^ bits /\ Z.odd v = true.
Proof.
  intros Hbits. induction k as [|k IH]; intros g fuel (c & Hc & Hpass) Hfuel;
    (destruct fuel as [|fuel]; [lia|]); cbn [generate_prime].
  - rewrite Nat.add_0_r in Hc, Hpass. rewrite Hc. cbn [bind].
    rewrite Hpass. exists c, (S g). split; [reflexivity|].
    destruct (random_number_spec (mt_word rnd g) bits Hbits)
      as (v & Hv & Hrange).
    rewrite Hc in Hv. injection Hv as <-. exact Hrange.
  - destruct (random_number_spec (mt_word rnd g) bits Hbits)
      as (c0 & Hc0 & Hrange0).
    rewrite Hc0. cbn [bind].
    destruct (miller_rabin_test_boolean (dis_sample rnd g) c0 10)
      as [Ht|Ht]; rewrite Ht.
    + exists c0, (S g). split; [reflexivity|exact Hrange0].
    + apply IH; [|lia]. exists c.
      replace (S g + k)%nat with (g + S k)%nat by lia. split; assumption.
Qed.

(** C7. For every [bits > 1] and every randomness, [random_number]
    returns a candidate [v] with [2^(bits-1) <= v < 2^bits] and [v] odd;
    every value [generate_prime] returns is such a [v]; and
    [generate_prime] does return one as soon as some candidate of the
    run passes the primality test and the loop is allowed to reach it. *)
Theorem prime_candidate_bit_length (bits : Z) :
  1 < bits ->
  (forall gen, exists v,
      random_number gen bits = Ok v /\
      2 ^ (bits - 1) <= v < 2 ^ bits /\ Z.odd v = true) /\
  (forall fuel rnd g v g',
      generate_prime fuel rnd bits g = Ok (v, g') ->
      2 ^ (bits - 1) <= v < 2 ^ bits /\ Z.odd v = true) /\
  (forall rnd (g k fuel : nat),
      (exists c, random_number (mt_word rnd (g + k)) bits = Ok c /\
                 miller_rabin_test (dis_sample rnd (g + k)) c 10 = Ok true) ->
      (k < fuel)%nat ->
      exists v g', generate_prime fuel rnd bits g = Ok (v, g') /\
                   2 ^ (bits - 1) <= v < 2 ^ bits /\ Z.odd v = true).
Proof.
  intros Hbits. repeat apply conj.
  - intros gen. apply random_number_spec; assumption.
  - intros fuel rnd g v g' H.
    apply generate_prime_candidate in H as (k & Hk & _).
    destruct (random_number_spec (mt_word rnd k) bits Hbits)
      as (v' & Hv' & Hrange).
    rewrite Hk in Hv'. injection Hv' as <-. exact Hrange.
  - intros rnd g k fuel Hpass Hfuel.
    apply (generate_prime_returns rnd bits k Hbits g fuel Hpass Hfuel).
Qed.

Lemma prime_candidate_bit_length_witness :
  (exists v,
      random_number (mt_word example_entropy 0) 20 = Ok v /\
      2 ^ (20 - 1) <= v < 2 ^ 20 /\ Z.odd v = true) /\
  (exists v g',
      generate_prime 1 example_entropy 20 0 = Ok (v, g') /\
      2 ^ (20 - 1) <= v < 2 ^ 20 /\ Z.odd v = true).
Proof.
  destruct (prime_candidate_bit_length 20 ltac:(lia)) as (Hnum & _ & Hret).
  split.
  - apply Hnum.
  - apply (Hret example_entropy 0%nat 0%nat 1%nat); [|lia].
    exists 524309. split; vm_compute; reflexivity.
Defined.
